(** * jitter: a ticker with a randomised extra delay

    A shallow embedding of [jitter.go] (package [jitter]) and the properties
    of its constructor, its background loop, its single-slot event channel
    and its [Stop] operation.

    The Go runtime pieces the package relies on (int64 arithmetic, buffered
    and closed channels, [select], [math/rand], the clock and [time.Sleep])
    are modelled first, each from the Go language specification or the
    documentation of the standard library; the package itself follows,
    function by function. *)

From Stdlib Require Import ZArith List Bool Lia Sorted.
Import ListNotations.
Open Scope Z_scope.

(** ** Machine integers *)

Module Int64.

Definition min_int : Z := - 2 ^ 63.
Definition max_int : Z := 2 ^ 63 - 1.

Definition in_range (z : Z) : Prop := min_int <= z <= max_int.

(** Two's complement wrap-around of a mathematical integer to [bits] bits. *)
Definition wrap_bits (bits : Z) (z : Z) : Z :=
  (z + 2 ^ (bits - 1)) mod 2 ^ bits - 2 ^ (bits - 1).

Definition wrap (z : Z) : Z := wrap_bits 64 z.

(** Go's [+] on int64 (and so on [time.Duration]). *)
Definition add (a b : Z) : Z := wrap (a + b).

End Int64.

(** Go's [int] is 32 or 64 bits wide, depending on the platform. *)
Inductive arch : Type := Arch32 | Arch64.

Definition int_bits (a : arch) : Z :=
  match a with Arch32 => 32 | Arch64 => 64 end.

(** The conversion [int(d)] of an int64 value. *)
Definition to_int (a : arch) (d : Z) : Z := Int64.wrap_bits (int_bits a) d.

(** ** Panics and results *)

Inductive panic_value : Type :=
| NonPositiveInterval (v : Z)  (* "non-positive interval for NewTicker: %d" *)
| NonPositiveJitter (v : Z)    (* "non-positive jitter for NewTicker: %d" *)
| InvalidArgumentInt63n        (* math/rand: "invalid argument to Int63n" *)
| CloseOfClosedChannel.        (* runtime: "close of closed channel" *)

Inductive result (A : Type) : Type :=
| Ok (a : A)
| Panic (p : panic_value).

Arguments Ok {A} a.
Arguments Panic {A} p.

(** ** math/rand *)

Module Rand.

(** A [rand.Source] is deterministic: the sequence of its outputs is a
    function of the seed alone.  A generator is the stream of the outputs
    of its source, and the number of outputs consumed so far. *)
Record t : Type := mk { outputs : nat -> Z; used : nat }.

Definition New (source : nat -> Z) : t := {| outputs := source; used := 0 |}.

(** [Int63] returns a non-negative 63-bit integer. *)
Definition Int63 (r : t) : Z * t :=
  (Z.land (outputs r (used r)) Int64.max_int,
   {| outputs := outputs r; used := S (used r) |}).

(** [Int63n n] returns a number of the half-open interval [0, n) and panics
    if [n <= 0] (documentation of math/rand).  The value is the reduction
    modulo [n] of an output of the source; the resampling the library does
    to remove the modulo bias only decides which output that is. *)
Definition Int63n (r : t) (n : Z) : result (Z * t) :=
  if n <=? 0 then Panic InvalidArgumentInt63n
  else let (v, r') := Int63 r in Ok (v mod n, r').

End Rand.

(** ** Channels *)

Module Chan.

Record t (A : Type) : Type :=
  mk { cap : nat; buf : list A; closed : bool }.

Arguments mk {A} cap buf closed.
Arguments cap {A} _.
Arguments buf {A} _.
Arguments closed {A} _.

(** [make(chan A, n)] *)
Definition make {A : Type} (n : nat) : t A :=
  {| cap := n; buf := []; closed := false |}.

(** A send on a buffered channel can proceed when the buffer has room. *)
Definition can_send {A : Type} (c : t A) : bool :=
  (length (buf c) <? cap c)%nat.

(** A receive can proceed when a value is buffered or the channel is
    closed. *)
Definition can_recv {A : Type} (c : t A) : bool :=
  match buf c with
  | [] => closed c
  | _ :: _ => true
  end.

Definition send {A : Type} (c : t A) (v : A) : t A :=
  {| cap := cap c; buf := buf c ++ [v]; closed := closed c |}.

(** [close(c)]: closing a closed channel panics. *)
Definition close {A : Type} (c : t A) : result (t A) :=
  if closed c then Panic CloseOfClosedChannel
  else Ok {| cap := cap c; buf := buf c; closed := true |}.

End Chan.

(** ** select

    The [select] of [tick] has a receive from [stop], a send on [c] and a
    [default].  Go chooses among the cases that can proceed by a uniform
    pseudo-random selection; the runtime does so by polling the cases in a
    random order and taking the first that is ready, and takes [default] only
    when none is. *)

Inductive pollorder : Type := StopFirst | SendFirst.

Inductive select_case : Type := CaseStop | CaseSend | CaseDefault.

Definition select_choose (order : pollorder) (stop_ready send_ready : bool)
  : select_case :=
  match order with
  | StopFirst =>
      if stop_ready then CaseStop
      else if send_ready then CaseSend else CaseDefault
  | SendFirst =>
      if send_ready then CaseSend
      else if stop_ready then CaseStop else CaseDefault
  end.

(** ** The runtime seen by the constructor

    [NewTicker] reads the clock, allocates two channels and starts one
    goroutine.  The runtime records the clock reading, the number of channels
    made and the number of goroutines started, so that what the constructor
    has done when it returns or panics can be stated. *)

Record Runtime : Type :=
  { clock : Z; chans_made : nat; goroutines : nat }.

Definition M (A : Type) : Type := Runtime -> result A * Runtime.

Definition ret {A : Type} (a : A) : M A := fun rt => (Ok a, rt).

Definition panic {A : Type} (p : panic_value) : M A := fun rt => (Panic p, rt).

Definition bind {A B : Type} (m : M A) (k : A -> M B) : M B :=
  fun rt =>
    match m rt with
    | (Ok a, rt') => k a rt'
    | (Panic p, rt') => (Panic p, rt')
    end.

Notation "x <- m ;; k" := (bind m (fun x => k))
  (at level 61, m at next level, right associativity).

(** [time.Now().UnixNano()] *)
Definition UnixNano : M Z := fun rt => (Ok (Int64.wrap (clock rt)), rt).

(** [make(chan A, n)] *)
Definition make_chan {A : Type} (n : nat) : M (Chan.t A) :=
  fun rt =>
    (Ok (Chan.make n),
     {| clock := clock rt; chans_made := S (chans_made rt);
        goroutines := goroutines rt |}).

(** ** The package *)

(** [time.Time] and [time.Duration], in nanoseconds. *)
Definition Time : Type := Z.
Definition Duration : Type := Z.

(** The struct [Ticker].  Its channels and its generator are references in
    Go: the copy of the struct that the method receivers take shares them
    with the value the constructor returned, so one record stands for both. *)
Record Ticker : Type :=
  { C : Chan.t Time;
    interval : Duration;
    jitter : Duration;
    stop : Chan.t unit;
    random : Rand.t }.

(** Where the goroutine running [tick] stands. *)
Inductive Pc : Type :=
| AtLoop                  (* at the top of the [for], about to call [sleep] *)
| Asleep (until : Time)   (* inside [time.Sleep], which returns at [until] or later *)
| Exited.                 (* after [break loop] *)

(** A ticker, its goroutine, and the clock. *)
Record State : Type :=
  { ticker : Ticker; pc : Pc; now : Time }.

(** [go ticker.tick(c)] *)
Definition go_tick (t : Ticker) : M State :=
  fun rt =>
    (Ok {| ticker := t; pc := AtLoop; now := clock rt |},
     {| clock := clock rt; chans_made := chans_made rt;
        goroutines := S (goroutines rt) |}).

Section Package.

(** The width of [int] and [rand.NewSource], the generator of the standard
    library, are the platform's. *)
Variable platform : arch.
Variable NewSource : Z -> nat -> Z.

Definition NewTicker (interval jitter : Duration) : M State :=
  if interval <=? 0 then
    panic (NonPositiveInterval (to_int platform interval))
  else if jitter <=? 0 then
    panic (NonPositiveJitter (to_int platform jitter))
  else
    seed <- UnixNano ;;
    let source := NewSource seed in
    let random := Rand.New source in
    c <- make_chan 1 ;;
    stop <- make_chan 0 ;;
    let ticker :=
      {| C := c; interval := interval; jitter := jitter;
         stop := stop; random := random |} in
    go_tick ticker.

End Package.

(** [sleep]: the delay drawn, the duration handed to [time.Sleep], and the
    generator after the draw. *)
Definition sleep (t : Ticker) : result (Z * Duration * Rand.t) :=
  let jitter := jitter t in  (* int64(t.jitter): Duration is an int64 *)
  match Rand.Int63n (random t) jitter with
  | Panic p => Panic p
  | Ok (delay, r') => Ok (delay, Int64.add (interval t) delay, r')
  end.

(** [Stop] *)
Definition Stop (t : Ticker) : result Ticker :=
  match Chan.close (stop t) with
  | Panic p => Panic p
  | Ok stop' =>
      Ok {| C := C t; interval := interval t; jitter := jitter t;
            stop := stop'; random := random t |}
  end.

(** ** Executions

    The goroutine, the consumer of [C] and the caller of [Stop] run
    concurrently.  An execution is a sequence of atomic actions; an action
    carries what the environment decides: how much time passes, and the order
    in which a [select] polls its cases. *)

Inductive Action : Type :=
| Elapse (dt : N)                (* time passes *)
| ProdSleep                      (* the loop calls [t.sleep()] *)
| ProdSelect (order : pollorder) (* [time.Sleep] returns; the loop runs its [select] *)
| Recv                           (* the consumer receives from [C] *)
| CallStop.                      (* the caller calls [Stop] *)

(** What an action does that can be observed. *)
Inductive Event : Type :=
| EvSleep (delay : Z) (d : Duration) (* [time.Sleep(d)], with [d = interval + delay] *)
| EvSend (t : Time)                  (* the send case ran: [t] is now in [C] *)
| EvDrop (t : Time)                  (* the default case ran: [t] is discarded *)
| EvExit                             (* the stop case ran: [break loop] *)
| EvRecv (t : Time)                  (* the consumer got [t] *)
| EvStop.                            (* [Stop] returned *)

Inductive outcome : Type :=
| Next (s : State) (evs : list Event)
| Stuck                   (* the action cannot happen in this state *)
| Crash (p : panic_value) (* a panic nobody recovers: the program dies *).

Definition set_ticker (s : State) (t : Ticker) (p : Pc) : State :=
  {| ticker := t; pc := p; now := now s |}.

Definition with_C (t : Ticker) (c : Chan.t Time) : Ticker :=
  {| C := c; interval := interval t; jitter := jitter t;
     stop := stop t; random := random t |}.

Definition with_random (t : Ticker) (r : Rand.t) : Ticker :=
  {| C := C t; interval := interval t; jitter := jitter t;
     stop := stop t; random := r |}.

(** One pass through the [select] of [tick], at time [now s]. *)
Definition tick_select (s : State) (order : pollorder) : outcome :=
  let t := ticker s in
  match select_choose order (Chan.can_recv (stop t)) (Chan.can_send (C t)) with
  | CaseStop => Next (set_ticker s t Exited) [EvExit]
  | CaseSend =>
      Next (set_ticker s (with_C t (Chan.send (C t) (now s))) AtLoop)
           [EvSend (now s)]
  | CaseDefault => Next (set_ticker s t AtLoop) [EvDrop (now s)]
  end.

Definition step (s : State) (a : Action) : outcome :=
  match a with
  | Elapse dt =>
      Next {| ticker := ticker s; pc := pc s; now := now s + Z.of_N dt |} []
  | ProdSleep =>
      match pc s with
      | AtLoop =>
          match sleep (ticker s) with
          | Panic p => Crash p
          | Ok (delay, d, r') =>
              (* a negative or zero duration makes Sleep return at once *)
              Next (set_ticker s (with_random (ticker s) r')
                               (Asleep (now s + Z.max 0 d)))
                   [EvSleep delay d]
          end
      | _ => Stuck
      end
  | ProdSelect order =>
      match pc s with
      | Asleep until => if until <=? now s then tick_select s order else Stuck
      | _ => Stuck
      end
  | Recv =>
      match Chan.buf (C (ticker s)) with
      | [] => Stuck
      | v :: rest =>
          Next (set_ticker s
                  (with_C (ticker s)
                     {| Chan.cap := Chan.cap (C (ticker s)); Chan.buf := rest;
                        Chan.closed := Chan.closed (C (ticker s)) |})
                  (pc s))
               [EvRecv v]
      end
  | CallStop =>
      match Stop (ticker s) with
      | Panic p => Crash p
      | Ok t' => Next (set_ticker s t' (pc s)) [EvStop]
      end
  end.

Fixpoint run (s : State) (acts : list Action) : outcome :=
  match acts with
  | [] => Next s []
  | a :: rest =>
      match step s a with
      | Next s' evs =>
          match run s' rest with
          | Next s'' evs' => Next s'' (evs ++ evs')
          | o => o
          end
      | o => o
      end
  end.

(** The timestamps placed in [C], those the consumer received, and the
    durations slept, in order. *)
Fixpoint sent (evs : list Event) : list Time :=
  match evs with
  | [] => []
  | EvSend t :: rest => t :: sent rest
  | _ :: rest => sent rest
  end.

Fixpoint received (evs : list Event) : list Time :=
  match evs with
  | [] => []
  | EvRecv t :: rest => t :: received rest
  | _ :: rest => received rest
  end.

Fixpoint count_stops (evs : list Event) : nat :=
  match evs with
  | [] => 0%nat
  | EvStop :: rest => S (count_stops rest)
  | _ :: rest => count_stops rest
  end.

(** The passes through the [select] that went on with the loop. *)
Fixpoint completed_cycles (evs : list Event) : nat :=
  match evs with
  | [] => 0%nat
  | EvSend _ :: rest => S (completed_cycles rest)
  | EvDrop _ :: rest => S (completed_cycles rest)
  | _ :: rest => completed_cycles rest
  end.


(** One cycle of the loop, with [time.Sleep] returning exactly on time, and
    the cycle followed by the consumer draining [C]. *)
Definition cycle (s : State) (order : pollorder) : list Action :=
  match sleep (ticker s) with
  | Panic _ => []
  | Ok (_, d, _) => [ProdSleep; Elapse (Z.to_N (Z.max 0 d)); ProdSelect order]
  end.

Definition drained_cycle (s : State) (order : pollorder) : list Action :=
  cycle s order ++ [Recv].

(** The state invariant of a ticker built with interval [I] and jitter [J]. *)
Definition ticker_inv (I J : Z) (s : State) : Prop :=
  interval (ticker s) = I /\
  jitter (ticker s) = J /\
  Chan.cap (C (ticker s)) = 1%nat /\
  (length (Chan.buf (C (ticker s))) <= 1)%nat /\
  Chan.buf (stop (ticker s)) = [].

(** A linear congruential generator, used as the source of the concrete
    executions below. *)
Fixpoint lcg (seed : Z) (i : nat) : Z :=
  match i with
  | O => seed mod 2 ^ 64
  | S k => (lcg seed k * 6364136223846793005 + 1442695040888963407) mod 2 ^ 64
  end.

Definition lcgSource (seed : Z) (i : nat) : Z := Z.shiftr (lcg seed (S i)) 1.

Definition boot : Runtime := {| clock := 0; chans_made := 0; goroutines := 0 |}.

(** The runtime once a ticker has been made at boot. *)
Definition booted : Runtime := {| clock := 0; chans_made := 2; goroutines := 1 |}.

(** The state [NewTicker] returns when it returns. *)
Definition fresh (NewSource : Z -> nat -> Z) (I J : Z) (rt : Runtime) : State :=
  {| ticker :=
       {| C := Chan.make 1; interval := I; jitter := J; stop := Chan.make 0;
          random := Rand.New (NewSource (Int64.wrap (clock rt))) |};
     pc := AtLoop;
     now := clock rt |}.

(** What an event of the loop's [sleep] satisfies, for a ticker of interval
    [I] and jitter [J]: the delay is in [0, J), the duration is the int64 sum,
    and it is in [I, I + J) when that sum cannot overflow. *)
Definition sleep_event_ok (I J : Z) (ev : Event) : Prop :=
  match ev with
  | EvSleep delay d =>
      0 <= delay < J /\
      d = Int64.wrap (I + delay) /\
      (I + J <= 2 ^ 63 -> I <= d < I + J)
  | _ => True
  end.

(** The order of delivery: what the consumer received, followed by what
    waits in [C], is what was placed in [C]; the timestamps placed are in
    non-decreasing order and none is in the future. *)
Definition order_inv (s : State) (tr : list Event) : Prop :=
  received tr ++ Chan.buf (C (ticker s)) = sent tr /\
  StronglySorted Z.le (sent tr) /\
  Forall (fun t => t <= now s) (sent tr).

(** For a ticker of interval [I] whose sleeps are at least [I] long: the
    timestamps placed are strictly increasing, and a sleeping loop wakes at
    least [I] after the last of them. *)
Definition strict_inv (I : Z) (s : State) (tr : list Event) : Prop :=
  StronglySorted Z.lt (sent tr) /\
  Forall (fun t => t <= now s) (sent tr) /\
  (forall u, pc s = Asleep u -> Forall (fun t => t + I <= u) (sent tr)).

(** The states of the ticker [NewTicker(100ms, 50ms)] made at boot with
    [lcgSource]: [used] delays drawn, [buf] waiting in [C]. *)
Definition sample_state (used : nat) (buf : list Time) (stopped : bool)
           (p : Pc) (t : Time) : State :=
  {| ticker :=
       {| C := {| Chan.cap := 1; Chan.buf := buf; Chan.closed := false |};
          interval := 100000000;
          jitter := 50000000;
          stop := {| Chan.cap := 0; Chan.buf := []; Chan.closed := stopped |};
          random := {| Rand.outputs := lcgSource (Int64.wrap (clock boot));
                       Rand.used := used |} |};
     pc := p;
     now := t |}.

(** The timestamps the loop tried to deliver (placed or discarded), the
    delays it drew, and how often it slept and left. *)
Fixpoint attempted (evs : list Event) : list Time :=
  match evs with
  | [] => []
  | EvSend t :: rest => t :: attempted rest
  | EvDrop t :: rest => t :: attempted rest
  | _ :: rest => attempted rest
  end.


Fixpoint count_sleeps (evs : list Event) : nat :=
  match evs with
  | [] => 0%nat
  | EvSleep _ _ :: rest => S (count_sleeps rest)
  | _ :: rest => count_sleeps rest
  end.

Fixpoint count_exits (evs : list Event) : nat :=
  match evs with
  | [] => 0%nat
  | EvExit :: rest => S (count_exits rest)
  | _ :: rest => count_exits rest
  end.

Fixpoint count_drops (evs : list Event) : nat :=
  match evs with
  | [] => 0%nat
  | EvDrop _ :: rest => S (count_drops rest)
  | _ :: rest => count_drops rest
  end.

(** One when the loop is inside [time.Sleep], zero otherwise. *)
Definition sleeping (p : Pc) : nat :=
  match p with Asleep _ => 1%nat | _ => 0%nat end.

(** One when the loop has left, zero otherwise. *)
Definition exited (p : Pc) : nat :=
  match p with Exited => 1%nat | _ => 0%nat end.

Definition is_Recv (a : Action) : bool :=
  match a with Recv => true | _ => false end.

(** What never changes in the objects of a ticker: [C] is never closed, no
    value is ever sent on [stop], and the generator keeps its source. *)
Definition objects_inv (source : nat -> Z) (s : State) : Prop :=
  Chan.closed (C (ticker s)) = false /\
  Chan.cap (stop (ticker s)) = 0%nat /\
  Chan.buf (stop (ticker s)) = [] /\
  Rand.outputs (random (ticker s)) = source.

(** The loop has left only if the stop channel is closed, and it leaves at
    most once. *)
Definition exit_inv (s : State) (tr : list Event) : Prop :=
  count_exits tr = exited (pc s) /\
  (pc s = Exited -> Chan.closed (stop (ticker s)) = true).

(** Every sleep is followed by one pass through the [select]. *)
Definition cycle_inv (s : State) (tr : list Event) : Prop :=
  count_sleeps tr =
    (completed_cycles tr + count_exits tr + sleeping (pc s))%nat.


(** For a ticker of interval [I] made at time [t0] whose sleeps are at least
    [I] long: the attempts are at least [I] apart, the first comes at
    [t0 + I] or later, and a sleeping loop wakes at least [I] after the last
    attempt. *)
Definition spacing_inv (I : Z) (t0 : Time) (s : State) (tr : list Event) : Prop :=
  StronglySorted (fun a b => a + I <= b) (attempted tr) /\
  Forall (fun t => t0 + I <= t <= now s) (attempted tr) /\
  t0 <= now s /\
  (forall u, pc s = Asleep u ->
             t0 + I <= u /\ Forall (fun t => t + I <= u) (attempted tr)).

(** ** Arithmetic and library facts *)

Lemma wrap_in_range (z : Z) : Int64.in_range z -> Int64.wrap z = z.
Proof.
  unfold Int64.in_range, Int64.min_int, Int64.max_int, Int64.wrap, Int64.wrap_bits.
  intros H.
  change (64 - 1) with 63.
  rewrite Z.mod_small by lia. lia.
Qed.

Lemma Int63_range (r : Rand.t) : 0 <= fst (Rand.Int63 r) <= Int64.max_int.
Proof.
  unfold Rand.Int63; simpl.
  change Int64.max_int with (Z.ones 63).
  rewrite Z.land_ones by lia.
  pose proof (Z.mod_pos_bound (Rand.outputs r (Rand.used r)) (2 ^ 63) ltac:(lia)).
  change (Z.ones 63) with (2 ^ 63 - 1). lia.
Qed.

Lemma Int63n_ok (r : Rand.t) (n : Z) :
  0 < n ->
  exists v r', Rand.Int63n r n = Ok (v, r') /\ 0 <= v < n.
Proof.
  intros Hn. unfold Rand.Int63n.
  destruct (Z.leb_spec n 0) as [H|H]; [lia|].
  destruct (Rand.Int63 r) as [v r'].
  exists (v mod n), r'. split; [reflexivity|].
  apply Z.mod_pos_bound. exact Hn.
Qed.

Lemma Int63n_panics (r : Rand.t) (n : Z) :
  n <= 0 -> Rand.Int63n r n = Panic InvalidArgumentInt63n.
Proof.
  intros Hn. unfold Rand.Int63n.
  destruct (Z.leb_spec n 0) as [H|H]; [reflexivity|lia].
Qed.

(** ** The constructor *)

Lemma NewTicker_ok (p : arch) (NS : Z -> nat -> Z) (I J : Z) (rt : Runtime) :
  0 < I -> 0 < J ->
  NewTicker p NS I J rt =
    (Ok (fresh NS I J rt),
     {| clock := clock rt; chans_made := S (S (chans_made rt));
        goroutines := S (goroutines rt) |}).
Proof.
  intros HI HJ. unfold NewTicker.
  destruct (Z.leb_spec I 0); [lia|].
  destruct (Z.leb_spec J 0); [lia|].
  reflexivity.
Qed.

Lemma NewTicker_inv (p : arch) (NS : Z -> nat -> Z) (I J : Z)
      (rt rt' : Runtime) (s0 : State) :
  NewTicker p NS I J rt = (Ok s0, rt') ->
  0 < I /\ 0 < J /\ s0 = fresh NS I J rt.
Proof.
  intros H.
  destruct (Z.leb_spec I 0) as [HI|HI].
  - unfold NewTicker in H. destruct (Z.leb_spec I 0); [discriminate H|lia].
  - destruct (Z.leb_spec J 0) as [HJ|HJ].
    + unfold NewTicker in H.
      destruct (Z.leb_spec I 0); [lia|].
      destruct (Z.leb_spec J 0); [discriminate H|lia].
    + rewrite (NewTicker_ok p NS I J rt HI HJ) in H.
      inversion H. auto.
Qed.

Lemma fresh_inv (NS : Z -> nat -> Z) (I J : Z) (rt : Runtime) :
  ticker_inv I J (fresh NS I J rt).
Proof.
  unfold ticker_inv, fresh; simpl. repeat split; lia.
Qed.

(** ** Executions: general facts *)

Lemma run_app (acts1 acts2 : list Action) (s : State) :
  run s (acts1 ++ acts2) =
    match run s acts1 with
    | Next s1 evs1 =>
        match run s1 acts2 with
        | Next s2 evs2 => Next s2 (evs1 ++ evs2)
        | o => o
        end
    | o => o
    end.
Proof.
  revert s. induction acts1 as [|a acts1 IH]; intros s; simpl.
  - destruct (run s acts2); reflexivity.
  - destruct (step s a) as [s1 e1| |q]; try reflexivity.
    rewrite IH.
    destruct (run s1 acts1) as [s2 e2| |q]; try reflexivity.
    destruct (run s2 acts2) as [s3 e3| |q]; try reflexivity.
    rewrite app_assoc. reflexivity.
Qed.

Section Invariants.

(** A property of a state and of the events that led to it. *)
Variable Inv : State -> list Event -> Prop.

Hypothesis Inv_step :
  forall s tr a s' evs,
    Inv s tr -> step s a = Next s' evs -> Inv s' (tr ++ evs).

Lemma run_preserves (acts : list Action) :
  forall s tr s' evs,
    Inv s tr -> run s acts = Next s' evs -> Inv s' (tr ++ evs).
Proof.
  induction acts as [|a acts IH]; intros s tr s' evs HI Hrun; simpl in Hrun.
  - inversion Hrun; subst. rewrite app_nil_r. exact HI.
  - destruct (step s a) as [s1 e1| |q] eqn:Hs; try discriminate Hrun.
    destruct (run s1 acts) as [s2 e2| |q] eqn:Hr; try discriminate Hrun.
    inversion Hrun; subst.
    rewrite app_assoc.
    eapply IH; [|exact Hr].
    eapply Inv_step; eassumption.
Qed.

(** A crash happens in a state the invariant holds in. *)
Lemma run_crash (acts : list Action) :
  forall s tr q,
    Inv s tr -> run s acts = Crash q ->
    exists s' tr' a, Inv s' tr' /\ step s' a = Crash q.
Proof.
  induction acts as [|a acts IH]; intros s tr q HI Hrun; simpl in Hrun.
  - discriminate Hrun.
  - destruct (step s a) as [s1 e1| |q'] eqn:Hs; try discriminate Hrun.
    + destruct (run s1 acts) as [s2 e2| |q'] eqn:Hr; try discriminate Hrun.
      inversion Hrun; subst.
      eapply IH; [|exact Hr].
      eapply Inv_step; eassumption.
    + inversion Hrun; subst. exists s, tr, a. auto.
Qed.

End Invariants.

(** What one step does to the ticker. *)
Lemma step_ticker_inv (I J : Z) (s s' : State) (a : Action) (evs : list Event) :
  ticker_inv I J s -> step s a = Next s' evs -> ticker_inv I J s'.
Proof.
  unfold ticker_inv. intros (HI & HJ & Hcap & Hlen & Hstop) Hstep.
  destruct a as [dt| |order| |]; simpl in Hstep.
  - inversion Hstep; subst; simpl. auto.
  - destruct (pc s); try discriminate Hstep.
    destruct (sleep (ticker s)) as [[[delay d] r']|q]; try discriminate Hstep.
    inversion Hstep; subst; simpl. auto.
  - destruct (pc s) as [|until|]; try discriminate Hstep.
    destruct (until <=? now s); try discriminate Hstep.
    unfold tick_select in Hstep.
    destruct (select_choose order _ _) eqn:Hsel;
      inversion Hstep; subst; simpl; auto.
    repeat split; auto.
    assert (Hready : Chan.can_send (C (ticker s)) = true).
    { destruct order; simpl in Hsel;
        destruct (Chan.can_recv (stop (ticker s)));
        destruct (Chan.can_send (C (ticker s))); congruence. }
    unfold Chan.can_send in Hready. rewrite Hcap in Hready.
    apply Nat.ltb_lt in Hready.
    rewrite length_app. simpl. lia.
  - destruct (Chan.buf (C (ticker s))) as [|v rest] eqn:Hbuf; try discriminate Hstep.
    inversion Hstep; subst; simpl. simpl in Hlen. repeat split; auto. lia.
  - unfold Stop, Chan.close in Hstep.
    destruct (Chan.closed (stop (ticker s))); try discriminate Hstep.
    inversion Hstep; subst; simpl. auto.
Qed.

Lemma run_ticker_inv (I J : Z) (acts : list Action) (s s' : State)
      (evs : list Event) :
  ticker_inv I J s -> run s acts = Next s' evs -> ticker_inv I J s'.
Proof.
  intros HI Hrun.
  apply (run_preserves (fun s _ => ticker_inv I J s)) with (acts := acts)
    (s := s) (tr := []) (s' := s') (evs := evs); auto.
  intros s1 tr a s2 evs2. apply step_ticker_inv.
Qed.

(** ** The sleep of a cycle *)

Lemma sleep_ok (I J : Z) (s : State) :
  ticker_inv I J s -> 0 < J ->
  exists delay r',
    sleep (ticker s) = Ok (delay, Int64.wrap (I + delay), r') /\
    0 <= delay < J.
Proof.
  intros (HI & HJ & _) Hpos. unfold sleep. rewrite HJ, HI.
  destruct (Int63n_ok (random (ticker s)) J Hpos) as (v & r' & Hdraw & Hv).
  rewrite Hdraw. exists v, r'. split; [reflexivity|exact Hv].
Qed.

Lemma step_sleep_events (I J : Z) (s s' : State) (a : Action) (evs : list Event) :
  0 < I -> 0 < J ->
  ticker_inv I J s -> step s a = Next s' evs ->
  Forall (sleep_event_ok I J) evs.
Proof.
  intros HIpos HJpos Hinv Hstep.
  destruct a as [dt| |order| |]; simpl in Hstep.
  - inversion Hstep; subst. constructor.
  - destruct (pc s); try discriminate Hstep.
    destruct (sleep_ok I J s Hinv HJpos) as (delay & r' & Hsl & Hd).
    rewrite Hsl in Hstep. inversion Hstep; subst.
    constructor; [|constructor]. simpl.
    split; [exact Hd|]. split; [reflexivity|].
    intros Hfit. rewrite wrap_in_range; [lia|].
    unfold Int64.in_range, Int64.min_int, Int64.max_int. lia.
  - destruct (pc s) as [|until|]; try discriminate Hstep.
    destruct (until <=? now s); try discriminate Hstep.
    unfold tick_select in Hstep.
    destruct (select_choose order _ _); inversion Hstep; subst;
      repeat constructor.
  - destruct (Chan.buf (C (ticker s))); try discriminate Hstep.
    inversion Hstep; subst. repeat constructor.
  - destruct (Stop (ticker s)); try discriminate Hstep.
    inversion Hstep; subst. repeat constructor.
Qed.

(** C1 (as amended): in every execution of a ticker constructed with interval
    [I > 0] and jitter [J > 0], the delay drawn in each cycle lies in
    [0, J) and the duration slept is the int64 sum of [I] and the delay; that
    duration [d] satisfies [I <= d < I + J] whenever [I + J] does not exceed
    [2^63], that is, whenever the sum cannot overflow. *)
Theorem sleep_duration_bounds
        (p : arch) (NS : Z -> nat -> Z) (I J : Z) (rt rt' : Runtime)
        (s0 s : State) (acts : list Action) (evs : list Event)
        (delay d : Z) :
  0 < I -> 0 < J ->
  NewTicker p NS I J rt = (Ok s0, rt') ->
  run s0 acts = Next s evs ->
  In (EvSleep delay d) evs ->
  0 <= delay < J /\
  d = Int64.wrap (I + delay) /\
  (I + J <= 2 ^ 63 -> I <= d < I + J).
Proof.
  intros HI HJ Hnew Hrun Hin.
  apply NewTicker_inv in Hnew. destruct Hnew as (_ & _ & ->).
  assert (H : ticker_inv I J s /\ Forall (sleep_event_ok I J) ([] ++ evs)).
  { apply (run_preserves
             (fun s tr => ticker_inv I J s /\ Forall (sleep_event_ok I J) tr))
      with (acts := acts) (s := fresh NS I J rt).
    - intros s1 tr a s2 evs2 [Hinv Htr] Hstep. split.
      + eapply step_ticker_inv; eassumption.
      + apply Forall_app. split; [exact Htr|].
        eapply step_sleep_events; eassumption.
    - split; [apply fresh_inv|constructor].
    - exact Hrun. }
  destruct H as [_ Hall]. simpl in Hall.
  rewrite Forall_forall in Hall.
  exact (Hall _ Hin).
Qed.

Lemma sleep_duration_bounds_witness :
  run (fresh lcgSource 100000000 50000000 boot) [ProdSleep] =
    Next (sample_state 1 [] false (Asleep 144481703) 0)
         [EvSleep 44481703 144481703] /\
  0 <= 44481703 < 50000000 /\
  144481703 = Int64.wrap (100000000 + 44481703) /\
  100000000 <= 144481703 < 100000000 + 50000000.
Proof.
  assert (Hrun : run (fresh lcgSource 100000000 50000000 boot) [ProdSleep] =
                   Next (sample_state 1 [] false (Asleep 144481703) 0)
                        [EvSleep 44481703 144481703])
    by reflexivity.
  split; [exact Hrun|].
  destruct (sleep_duration_bounds Arch64 lcgSource 100000000 50000000 boot booted
              (fresh lcgSource 100000000 50000000 boot)
              (sample_state 1 [] false (Asleep 144481703) 0)
              [ProdSleep] [EvSleep 44481703 144481703] 44481703 144481703)
    as (Hdelay & Hsum & Hd).
  - lia.
  - lia.
  - reflexivity.
  - exact Hrun.
  - simpl. left. reflexivity.
  - split; [exact Hdelay|]. split; [exact Hsum|]. apply Hd. lia.
Defined.

(** C1 as stated fails: with interval and jitter both the largest
    [time.Duration], the first delay drawn is in [0, J) but the int64 sum
    [interval + delay] wraps around to a negative duration, below [I]. *)
Lemma sleep_duration_overflow :
  exists s0 rt' s delay d,
    NewTicker Arch64 lcgSource Int64.max_int Int64.max_int boot = (Ok s0, rt') /\
    run s0 [ProdSleep] = Next s [EvSleep delay d] /\
    0 <= delay < Int64.max_int /\
    ~ (Int64.max_int <= d < Int64.max_int + Int64.max_int).
Proof.
  eexists. eexists. eexists.
  exists 721347520444481703, (-8502024516410294106).
  split; [apply NewTicker_ok; reflexivity|].
  split; [reflexivity|].
  split; [vm_compute; split; [discriminate|reflexivity]|].
  vm_compute. intros [H _]. apply H. reflexivity.
Qed.

(** ** Validation in the constructor *)

(** C2: when [interval <= 0] or [jitterBound <= 0] the constructor panics
    with one of its two invalid-argument errors and leaves the runtime as it
    found it: no channel has been made and no goroutine started, and no
    ticker exists that could produce an event. *)
Theorem NewTicker_rejects
        (p : arch) (NS : Z -> nat -> Z) (I J : Z) (rt : Runtime) :
  I <= 0 \/ J <= 0 ->
  exists q,
    NewTicker p NS I J rt = (Panic q, rt) /\
    (q = NonPositiveInterval (to_int p I) \/ q = NonPositiveJitter (to_int p J)).
Proof.
  intros H. unfold NewTicker.
  destruct (Z.leb_spec I 0) as [HI|HI].
  - eexists. split; [reflexivity|left; reflexivity].
  - destruct (Z.leb_spec J 0) as [HJ|HJ].
    + eexists. split; [reflexivity|right; reflexivity].
    + lia.
Qed.

Lemma NewTicker_rejects_witness :
  exists q,
    NewTicker Arch64 lcgSource 0 50000000 boot = (Panic q, boot) /\
    (q = NonPositiveInterval (to_int Arch64 0) \/
     q = NonPositiveJitter (to_int Arch64 50000000)).
Proof.
  apply (NewTicker_rejects Arch64 lcgSource 0 50000000 boot).
  left. lia.
Defined.



(** ** Panics during an execution *)

Lemma step_crash (I J : Z) (s : State) (a : Action) (q : panic_value) :
  ticker_inv I J s -> 0 < J -> step s a = Crash q ->
  a = CallStop /\ q = CloseOfClosedChannel /\
  Chan.closed (stop (ticker s)) = true.
Proof.
  intros Hinv HJ Hstep.
  destruct a as [dt| |order| |]; simpl in Hstep.
  - discriminate Hstep.
  - destruct (pc s); try discriminate Hstep.
    destruct (sleep_ok I J s Hinv HJ) as (delay & r' & Hsl & _).
    rewrite Hsl in Hstep. discriminate Hstep.
  - destruct (pc s) as [|until|]; try discriminate Hstep.
    destruct (until <=? now s); try discriminate Hstep.
    unfold tick_select in Hstep.
    destruct (select_choose order _ _); discriminate Hstep.
  - destruct (Chan.buf (C (ticker s))); discriminate Hstep.
  - unfold Stop, Chan.close in Hstep.
    destruct (Chan.closed (stop (ticker s))); [|discriminate Hstep].
    inversion Hstep. auto.
Qed.

(** C9: a ticker the constructor returns has a strictly positive jitter, in
    every state it reaches; so [Int63n] gets a positive argument, [sleep]
    returns a duration, and no execution dies of the panic of [Int63n]. *)
Theorem sleep_never_panics
        (p : arch) (NS : Z -> nat -> Z) (I J : Z) (rt rt' : Runtime)
        (s0 : State) :
  NewTicker p NS I J rt = (Ok s0, rt') ->
  0 < jitter (ticker s0) /\
  (forall acts s evs,
      run s0 acts = Next s evs ->
      0 < jitter (ticker s) /\
      exists delay d r', sleep (ticker s) = Ok (delay, d, r')) /\
  (forall acts, run s0 acts <> Crash InvalidArgumentInt63n).
Proof.
  intros Hnew.
  apply NewTicker_inv in Hnew. destruct Hnew as (HI & HJ & ->).
  pose proof (fresh_inv NS I J rt) as H0.
  split; [simpl; exact HJ|]. split.
  - intros acts s evs Hrun.
    pose proof (run_ticker_inv I J acts _ _ _ H0 Hrun) as Hinv.
    split.
    + destruct Hinv as (_ & -> & _). exact HJ.
    + destruct (sleep_ok I J s Hinv HJ) as (delay & r' & Hsl & _).
      eauto.
  - intros acts Hrun.
    destruct (run_crash (fun s _ => ticker_inv I J s)) with
      (acts := acts) (s := fresh NS I J rt) (tr := @nil Event)
      (q := InvalidArgumentInt63n) as (s' & tr' & a & Hinv & Hstep); auto.
    + intros s1 tr a s2 evs2. apply step_ticker_inv.
    + destruct (step_crash I J s' a _ Hinv HJ Hstep) as (_ & Hq & _).
      discriminate Hq.
Qed.

Lemma sleep_never_panics_witness :
  0 < jitter (ticker (fresh lcgSource 100000000 50000000 boot)) /\
  (forall acts s evs,
      run (fresh lcgSource 100000000 50000000 boot) acts = Next s evs ->
      0 < jitter (ticker s) /\
      exists delay d r', sleep (ticker s) = Ok (delay, d, r')) /\
  (forall acts,
      run (fresh lcgSource 100000000 50000000 boot) acts <>
      Crash InvalidArgumentInt63n).
Proof.
  apply (sleep_never_panics Arch64 lcgSource 100000000 50000000 boot booted).
  reflexivity.
Defined.

(** ** Stop *)

Lemma count_stops_app (evs1 evs2 : list Event) :
  count_stops (evs1 ++ evs2) = (count_stops evs1 + count_stops evs2)%nat.
Proof.
  induction evs1 as [|e evs1 IH]; simpl; [reflexivity|].
  destruct e; simpl; rewrite IH; reflexivity.
Qed.

Lemma Stop_open (t : Ticker) :
  Chan.closed (stop t) = false ->
  Stop t =
    Ok {| C := C t; interval := interval t; jitter := jitter t;
          stop := {| Chan.cap := Chan.cap (stop t); Chan.buf := Chan.buf (stop t);
                     Chan.closed := true |};
          random := random t |}.
Proof.
  intros H. unfold Stop, Chan.close. rewrite H. reflexivity.
Qed.

Lemma Stop_closed (t : Ticker) :
  Chan.closed (stop t) = true -> Stop t = Panic CloseOfClosedChannel.
Proof.
  intros H. unfold Stop, Chan.close. rewrite H. reflexivity.
Qed.

(** A step either is a call of [Stop] that closes the open channel, or leaves
    the channel as it is and records no [EvStop]. *)
Lemma step_stop_flag (s s' : State) (a : Action) (evs : list Event) :
  step s a = Next s' evs ->
  (Chan.closed (stop (ticker s)) = false /\
   Chan.closed (stop (ticker s')) = true /\ count_stops evs = 1%nat) \/
  (Chan.closed (stop (ticker s')) = Chan.closed (stop (ticker s)) /\
   count_stops evs = 0%nat).
Proof.
  intros Hstep.
  destruct a as [dt| |order| |]; simpl in Hstep.
  - inversion Hstep; subst; simpl. right. auto.
  - destruct (pc s); try discriminate Hstep.
    destruct (sleep (ticker s)) as [[[delay d] r']|q]; try discriminate Hstep.
    inversion Hstep; subst; simpl. right. auto.
  - destruct (pc s) as [|until|]; try discriminate Hstep.
    destruct (until <=? now s); try discriminate Hstep.
    unfold tick_select in Hstep.
    destruct (select_choose order _ _);
      inversion Hstep; subst; simpl; right; auto.
  - destruct (Chan.buf (C (ticker s))); try discriminate Hstep.
    inversion Hstep; subst; simpl. right. auto.
  - unfold Stop, Chan.close in Hstep.
    destruct (Chan.closed (stop (ticker s))) eqn:Hc; try discriminate Hstep.
    inversion Hstep; subst; simpl. left. auto.
Qed.

(** C6: in any state a fresh ticker reaches, a call of [Stop] while the stop
    channel is open closes it and returns, whatever the goroutine is doing and
    without changing where it stands; a call while the channel is closed
    panics with "close of closed channel", which ends the program.  So an
    execution holds at most one completed [Stop], and the channel is closed
    exactly when it holds one. *)
Theorem Stop_once
        (p : arch) (NS : Z -> nat -> Z) (I J : Z) (rt rt' : Runtime)
        (s0 s : State) (acts : list Action) (evs : list Event) :
  NewTicker p NS I J rt = (Ok s0, rt') ->
  run s0 acts = Next s evs ->
  (count_stops evs <= 1)%nat /\
  (Chan.closed (stop (ticker s)) = true <-> count_stops evs = 1%nat) /\
  (Chan.closed (stop (ticker s)) = false ->
   exists t',
     Stop (ticker s) = Ok t' /\
     Chan.closed (stop t') = true /\
     step s CallStop = Next {| ticker := t'; pc := pc s; now := now s |} [EvStop]) /\
  (Chan.closed (stop (ticker s)) = true ->
   Stop (ticker s) = Panic CloseOfClosedChannel /\
   run s0 (acts ++ [CallStop]) = Crash CloseOfClosedChannel).
Proof.
  intros Hnew Hrun.
  apply NewTicker_inv in Hnew. destruct Hnew as (HI & HJ & ->).
  assert (Hflag :
    (Chan.closed (stop (ticker s)) = false /\ count_stops ([] ++ evs) = 0%nat) \/
    (Chan.closed (stop (ticker s)) = true /\ count_stops ([] ++ evs) = 1%nat)).
  { apply (run_preserves
             (fun s tr =>
                (Chan.closed (stop (ticker s)) = false /\ count_stops tr = 0%nat) \/
                (Chan.closed (stop (ticker s)) = true /\ count_stops tr = 1%nat)))
      with (acts := acts) (s := fresh NS I J rt).
    - intros s1 tr a s2 evs2 Hprev Hstep.
      rewrite count_stops_app.
      destruct (step_stop_flag _ _ _ _ Hstep) as [(Ho & Hc & Hn)|(Hsame & Hn)];
        rewrite Hn.
      + destruct Hprev as [[_ Hz]|[Hc' _]]; [|congruence].
        right. split; [exact Hc|lia].
      + rewrite Hsame, Nat.add_0_r. exact Hprev.
    - left. split; reflexivity.
    - exact Hrun. }
  simpl in Hflag.
  split; [destruct Hflag as [[_ ->]|[_ ->]]; lia|].
  split; [destruct Hflag as [[Hc Hn]|[Hc Hn]]; rewrite Hc, Hn; split;
          intros; congruence|].
  split.
  - intros Hopen. eexists. split; [apply Stop_open; exact Hopen|].
    split; [reflexivity|].
    simpl. rewrite (Stop_open _ Hopen). reflexivity.
  - intros Hclosed. split; [apply Stop_closed; exact Hclosed|].
    rewrite run_app, Hrun. simpl.
    rewrite (Stop_closed _ Hclosed). reflexivity.
Qed.

Lemma Stop_once_witness :
  run (fresh lcgSource 100000000 50000000 boot) [ProdSleep; CallStop] =
    Next (sample_state 1 [] true (Asleep 144481703) 0)
         [EvSleep 44481703 144481703; EvStop] /\
  (count_stops [EvSleep 44481703%Z 144481703%Z; EvStop] <= 1)%nat /\
  Stop (ticker (sample_state 1 [] true (Asleep 144481703) 0)) =
    Panic CloseOfClosedChannel /\
  run (fresh lcgSource 100000000 50000000 boot)
      ([ProdSleep; CallStop] ++ [CallStop]) =
    Crash CloseOfClosedChannel.
Proof.
  assert (Hrun : run (fresh lcgSource 100000000 50000000 boot)
                     [ProdSleep; CallStop] =
                   Next (sample_state 1 [] true (Asleep 144481703) 0)
                        [EvSleep 44481703 144481703; EvStop])
    by reflexivity.
  split; [exact Hrun|].
  destruct (Stop_once Arch64 lcgSource 100000000 50000000 boot booted
              (fresh lcgSource 100000000 50000000 boot)
              (sample_state 1 [] true (Asleep 144481703) 0)
              [ProdSleep; CallStop] [EvSleep 44481703 144481703; EvStop])
    as (Hcount & _ & _ & Hsecond).
  - reflexivity.
  - exact Hrun.
  - split; [exact Hcount|]. apply Hsecond. reflexivity.
Defined.

(** ** The select of the loop once the stop channel is closed *)

Lemma sent_app (evs1 evs2 : list Event) :
  sent (evs1 ++ evs2) = sent evs1 ++ sent evs2.
Proof.
  induction evs1 as [|e evs1 IH]; simpl; [reflexivity|].
  destruct e; simpl; rewrite IH; reflexivity.
Qed.

Lemma received_app (evs1 evs2 : list Event) :
  received (evs1 ++ evs2) = received evs1 ++ received evs2.
Proof.
  induction evs1 as [|e evs1 IH]; simpl; [reflexivity|].
  destruct e; simpl; rewrite IH; reflexivity.
Qed.

Lemma completed_cycles_app (evs1 evs2 : list Event) :
  completed_cycles (evs1 ++ evs2) =
    (completed_cycles evs1 + completed_cycles evs2)%nat.
Proof.
  induction evs1 as [|e evs1 IH]; simpl; [reflexivity|].
  destruct e; simpl; rewrite IH; reflexivity.
Qed.

(** C3 fails on the code: [Stop] has returned while the goroutine slept, the
    slot of [C] is free, and the [select] that follows the sleep, polling the
    send case first, delivers an event and goes on with the loop. *)
Theorem select_after_stop_can_send :
  exists s0 rt' s,
    NewTicker Arch64 lcgSource 100000000 50000000 boot = (Ok s0, rt') /\
    run s0 [ProdSleep; CallStop; Elapse 150000000; ProdSelect SendFirst] =
      Next s [EvSleep 44481703 144481703; EvStop; EvSend 150000000] /\
    Chan.closed (stop (ticker s)) = true /\
    Chan.buf (C (ticker s)) = [150000000] /\
    pc s = AtLoop.
Proof.
  eexists. eexists. eexists.
  split; [apply NewTicker_ok; lia|].
  split; [reflexivity|].
  split; [reflexivity|].
  split; reflexivity.
Qed.

(** ** Whole cycles of the loop *)

(** From the top of the loop, a cycle with a punctual wake-up runs the
    [select] at time [now + max 0 d]. *)
Lemma cycle_runs (I J : Z) (s : State) (order : pollorder) :
  ticker_inv I J s -> 0 < J -> pc s = AtLoop ->
  exists delay d r',
    sleep (ticker s) = Ok (delay, d, r') /\
    run s (cycle s order) =
      match
        tick_select
          {| ticker := with_random (ticker s) r';
             pc := Asleep (now s + Z.max 0 d);
             now := now s + Z.max 0 d |} order
      with
      | Next s' evs => Next s' (EvSleep delay d :: evs)
      | o => o
      end.
Proof.
  intros Hinv HJ Hpc.
  destruct (sleep_ok I J s Hinv HJ) as (delay & r' & Hsl & _).
  exists delay, (Int64.wrap (I + delay)), r'.
  split; [exact Hsl|].
  unfold cycle. rewrite Hsl.
  set (d := Int64.wrap (I + delay)).
  cbn [run step]. rewrite Hpc, Hsl.
  cbn [set_ticker now pc ticker].
  rewrite Z2N.id by lia. rewrite Z.leb_refl.
  unfold tick_select.
  destruct (select_choose order _ _); cbn; rewrite ?app_nil_r; reflexivity.
Qed.

(** With the slot of [C] free, a cycle whose [select] polls the send case
    first delivers an event, whether or not the stop channel is closed; the
    consumer then takes it, and the loop is back where it was. *)
Lemma drained_cycle_sends (I J : Z) (s : State) :
  ticker_inv I J s -> 0 < J -> pc s = AtLoop ->
  Chan.buf (C (ticker s)) = [] ->
  exists s' evs,
    run s (drained_cycle s SendFirst) = Next s' evs /\
    ticker_inv I J s' /\ pc s' = AtLoop /\
    Chan.buf (C (ticker s')) = [] /\
    stop (ticker s') = stop (ticker s) /\
    length (sent evs) = 1%nat /\ received evs = sent evs.
Proof.
  intros Hinv HJ Hpc Hbuf.
  destruct (cycle_runs I J s SendFirst Hinv HJ Hpc)
    as (delay & d & r' & Hsl & Hrun).
  unfold tick_select in Hrun. cbn [ticker with_random C stop] in Hrun.
  assert (Hsend : Chan.can_send (C (ticker s)) = true).
  { unfold Chan.can_send. destruct Hinv as (_ & _ & -> & _).
    rewrite Hbuf. reflexivity. }
  rewrite Hsend in Hrun. cbn [select_choose] in Hrun.
  unfold drained_cycle. rewrite run_app, Hrun.
  cbn. rewrite Hbuf. cbn.
  eexists. eexists. split; [reflexivity|].
  destruct Hinv as (HI & HJ' & Hcap & Hlen & Hstop).
  cbn. unfold ticker_inv. cbn. repeat split; auto.
Qed.

Lemma drained_cycles (I J : Z) (n : nat) :
  forall s,
    ticker_inv I J s -> 0 < J -> pc s = AtLoop ->
    Chan.buf (C (ticker s)) = [] ->
    exists acts s' evs,
      run s acts = Next s' evs /\
      pc s' = AtLoop /\
      stop (ticker s') = stop (ticker s) /\
      length (sent evs) = n /\ received evs = sent evs.
Proof.
  induction n as [|n IH]; intros s Hinv HJ Hpc Hbuf.
  - exists [], s, []. repeat split; auto.
  - destruct (drained_cycle_sends I J s Hinv HJ Hpc Hbuf)
      as (s1 & evs1 & Hrun1 & Hinv1 & Hpc1 & Hbuf1 & Hstop1 & Hlen1 & Hrecv1).
    destruct (IH s1 Hinv1 HJ Hpc1 Hbuf1)
      as (acts & s2 & evs2 & Hrun2 & Hpc2 & Hstop2 & Hlen2 & Hrecv2).
    exists (drained_cycle s SendFirst ++ acts), s2, (evs1 ++ evs2).
    rewrite run_app, Hrun1, Hrun2.
    rewrite sent_app, received_app, length_app, Hlen1, Hlen2, Hrecv1, Hrecv2.
    repeat split; auto. congruence.
Qed.

(** C4 fails on the code: after [Stop] has returned, an execution delivers
    any number [n] of further events to a consumer that drains [C], and the
    loop has still not ended. *)
Theorem events_after_stop
        (p : arch) (NS : Z -> nat -> Z) (I J : Z) (rt rt' : Runtime)
        (s0 : State) (n : nat) :
  NewTicker p NS I J rt = (Ok s0, rt') ->
  exists acts s evs,
    run s0 (CallStop :: acts) = Next s (EvStop :: evs) /\
    length (sent evs) = n /\
    received evs = sent evs /\
    Chan.closed (stop (ticker s)) = true /\
    pc s = AtLoop.
Proof.
  intros Hnew.
  apply NewTicker_inv in Hnew. destruct Hnew as (HI & HJ & ->).
  set (s1 := {| ticker :=
                  {| C := Chan.make 1; interval := I; jitter := J;
                     stop := {| Chan.cap := 0; Chan.buf := [];
                                Chan.closed := true |};
                     random := Rand.New (NS (Int64.wrap (clock rt))) |};
                pc := AtLoop; now := clock rt |}).
  assert (Hinv : ticker_inv I J s1).
  { unfold ticker_inv, s1; cbn. repeat split; lia. }
  destruct (drained_cycles I J n s1 Hinv HJ eq_refl eq_refl)
    as (acts & s & evs & Hrun & Hpc & Hstop & Hlen & Hrecv).
  exists acts, s, evs.
  split.
  - change (run (fresh NS I J rt) (CallStop :: acts))
      with (match run s1 acts with
            | Next s'' evs' => Next s'' ([EvStop] ++ evs')
            | o => o
            end).
    rewrite Hrun. reflexivity.
  - rewrite Hstop. repeat split; auto.
Qed.

Lemma events_after_stop_witness :
  exists acts s evs,
    run (fresh lcgSource 100000000 50000000 boot) (CallStop :: acts) =
      Next s (EvStop :: evs) /\
    length (sent evs) = 3%nat /\
    received evs = sent evs /\
    Chan.closed (stop (ticker s)) = true /\
    pc s = AtLoop.
Proof.
  apply (events_after_stop Arch64 lcgSource 100000000 50000000 boot booted).
  reflexivity.
Defined.

(** ** The single slot of C *)

Lemma full_cannot_send (I J : Z) (s : State) :
  ticker_inv I J s -> Chan.buf (C (ticker s)) <> [] ->
  Chan.can_send (C (ticker s)) = false.
Proof.
  intros (_ & _ & Hcap & Hlen & _) Hne.
  unfold Chan.can_send. rewrite Hcap.
  destruct (Chan.buf (C (ticker s))) as [|v rest]; [congruence|].
  simpl in *. apply Nat.ltb_ge. lia.
Qed.

Lemma open_cannot_stop (I J : Z) (s : State) :
  ticker_inv I J s -> Chan.closed (stop (ticker s)) = false ->
  Chan.can_recv (stop (ticker s)) = false.
Proof.
  intros (_ & _ & _ & _ & Hstop) Hopen.
  unfold Chan.can_recv. rewrite Hstop. exact Hopen.
Qed.

(** The [select] of a woken loop always completes; with the slot occupied it
    leaves [C] alone and sends nothing, and unless the stop channel is closed
    it takes the default case and goes on. *)
Lemma select_when_full (I J : Z) (s : State) (until : Time) (order : pollorder) :
  ticker_inv I J s -> pc s = Asleep until -> until <= now s ->
  exists s' evs,
    step s (ProdSelect order) = Next s' evs /\
    (Chan.buf (C (ticker s)) <> [] ->
     Chan.buf (C (ticker s')) = Chan.buf (C (ticker s)) /\
     sent evs = [] /\
     (Chan.closed (stop (ticker s)) = false ->
      evs = [EvDrop (now s)] /\ pc s' = AtLoop)).
Proof.
  intros Hinv Hpc Hwake.
  cbn [step]. rewrite Hpc.
  destruct (Z.leb_spec until (now s)) as [_|Hlate]; [|lia].
  unfold tick_select.
  destruct (select_choose order _ _) eqn:Hsel.
  - eexists. eexists. split; [reflexivity|].
    intros Hne. cbn. split; [reflexivity|]. split; [reflexivity|].
    intros Hopen.
    rewrite (open_cannot_stop I J s Hinv Hopen) in Hsel.
    rewrite (full_cannot_send I J s Hinv Hne) in Hsel.
    destruct order; discriminate Hsel.
  - eexists. eexists. split; [reflexivity|].
    intros Hne.
    rewrite (full_cannot_send I J s Hinv Hne) in Hsel.
    destruct order; cbn in Hsel;
      destruct (Chan.can_recv (stop (ticker s))); discriminate Hsel.
  - eexists. eexists. split; [reflexivity|].
    intros Hne. cbn. repeat split; auto.
Qed.

(** While nobody calls [Stop], a cycle ends in the send or the default case
    and the loop goes on, whatever the consumer does. *)
Lemma open_cycle (I J : Z) (s : State) (order : pollorder) :
  ticker_inv I J s -> 0 < J -> pc s = AtLoop ->
  Chan.closed (stop (ticker s)) = false ->
  exists s' evs,
    run s (cycle s order) = Next s' evs /\
    Forall (fun a => a <> Recv /\ a <> CallStop) (cycle s order) /\
    ticker_inv I J s' /\ pc s' = AtLoop /\
    Chan.closed (stop (ticker s')) = false /\
    completed_cycles evs = 1%nat.
Proof.
  intros Hinv HJ Hpc Hopen.
  destruct (cycle_runs I J s order Hinv HJ Hpc)
    as (delay & d & r' & Hsl & Hrun).
  assert (Hacts : Forall (fun a => a <> Recv /\ a <> CallStop) (cycle s order)).
  { unfold cycle. rewrite Hsl. repeat constructor; discriminate. }
  assert (Hrun' := Hrun).
  apply eq_sym in Hrun'.
  unfold tick_select in Hrun. cbn [ticker with_random C stop] in Hrun.
  rewrite (open_cannot_stop I J s Hinv Hopen) in Hrun.
  assert (Hnext : exists s' evs, run s (cycle s order) = Next s' evs).
  { rewrite Hrun. destruct (select_choose order false _); eauto. }
  destruct Hnext as (s' & evs & Hnext).
  exists s', evs. split; [exact Hnext|]. split; [exact Hacts|].
  split; [eapply run_ticker_inv; eassumption|].
  rewrite Hnext in Hrun.
  destruct order; cbn [select_choose] in Hrun;
    destruct (Chan.can_send (C (ticker s)));
    inversion Hrun; subst; cbn; auto.
Qed.

Lemma open_cycles (I J : Z) (orders : list pollorder) :
  forall s,
    ticker_inv I J s -> 0 < J -> pc s = AtLoop ->
    Chan.closed (stop (ticker s)) = false ->
    exists acts s' evs,
      Forall (fun a => a <> Recv /\ a <> CallStop) acts /\
      run s acts = Next s' evs /\
      pc s' = AtLoop /\
      completed_cycles evs = length orders.
Proof.
  induction orders as [|order orders IH]; intros s Hinv HJ Hpc Hopen.
  - exists [], s, []. repeat split; auto.
  - destruct (open_cycle I J s order Hinv HJ Hpc Hopen)
      as (s1 & evs1 & Hrun1 & Hacts1 & Hinv1 & Hpc1 & Hopen1 & Hn1).
    destruct (IH s1 Hinv1 HJ Hpc1 Hopen1)
      as (acts & s2 & evs2 & Hacts2 & Hrun2 & Hpc2 & Hn2).
    exists (cycle s order ++ acts), s2, (evs1 ++ evs2).
    split; [apply Forall_app; split; assumption|].
    rewrite run_app, Hrun1, Hrun2, completed_cycles_app, Hn1, Hn2.
    repeat split; auto.
Qed.

(** C5: [C] is a buffer of capacity one.  In every state a fresh ticker
    reaches it holds at most one event.  The loop is never held up by [C]:
    at the top it can always start its sleep, and once woken its [select]
    always completes; when the slot is occupied the [select] leaves [C] as it
    is and sends nothing, and (the stop channel being open) it takes the
    default case and goes on with the loop, without a panic.  And for any
    number of cycles there is an execution in which the consumer never
    receives and the loop completes that many. *)
Theorem single_slot_buffer
        (p : arch) (NS : Z -> nat -> Z) (I J : Z) (rt rt' : Runtime)
        (s0 : State) :
  NewTicker p NS I J rt = (Ok s0, rt') ->
  (forall acts s evs,
      run s0 acts = Next s evs ->
      Chan.cap (C (ticker s)) = 1%nat /\
      (length (Chan.buf (C (ticker s))) <= 1)%nat) /\
  (forall acts s evs,
      run s0 acts = Next s evs ->
      pc s = AtLoop ->
      exists s' evs', step s ProdSleep = Next s' evs') /\
  (forall acts s evs until order,
      run s0 acts = Next s evs ->
      pc s = Asleep until -> until <= now s ->
      exists s' evs',
        step s (ProdSelect order) = Next s' evs' /\
        (Chan.buf (C (ticker s)) <> [] ->
         Chan.buf (C (ticker s')) = Chan.buf (C (ticker s)) /\
         sent evs' = [] /\
         (Chan.closed (stop (ticker s)) = false ->
          evs' = [EvDrop (now s)] /\ pc s' = AtLoop))) /\
  (forall orders : list pollorder,
      exists acts s evs,
        Forall (fun a => a <> Recv /\ a <> CallStop) acts /\
        run s0 acts = Next s evs /\
        pc s = AtLoop /\
        completed_cycles evs = length orders).
Proof.
  intros Hnew.
  apply NewTicker_inv in Hnew. destruct Hnew as (HI & HJ & ->).
  pose proof (fresh_inv NS I J rt) as H0.
  split; [|split; [|split]].
  - intros acts s evs Hrun.
    destruct (run_ticker_inv I J acts _ _ _ H0 Hrun) as (_ & _ & Hcap & Hlen & _).
    auto.
  - intros acts s evs Hrun Hpc.
    pose proof (run_ticker_inv I J acts _ _ _ H0 Hrun) as Hinv.
    destruct (sleep_ok I J s Hinv HJ) as (delay & r' & Hsl & _).
    cbn [step]. rewrite Hpc, Hsl. eauto.
  - intros acts s evs until order Hrun Hpc Hwake.
    apply (select_when_full I J s until order); auto.
    eapply run_ticker_inv; eassumption.
  - intros orders.
    apply (open_cycles I J orders); auto.
Qed.

Lemma single_slot_buffer_witness :
  (forall acts s evs,
      run (fresh lcgSource 100000000 50000000 boot) acts = Next s evs ->
      Chan.cap (C (ticker s)) = 1%nat /\
      (length (Chan.buf (C (ticker s))) <= 1)%nat) /\
  (forall acts s evs,
      run (fresh lcgSource 100000000 50000000 boot) acts = Next s evs ->
      pc s = AtLoop ->
      exists s' evs', step s ProdSleep = Next s' evs') /\
  (forall acts s evs until order,
      run (fresh lcgSource 100000000 50000000 boot) acts = Next s evs ->
      pc s = Asleep until -> until <= now s ->
      exists s' evs',
        step s (ProdSelect order) = Next s' evs' /\
        (Chan.buf (C (ticker s)) <> [] ->
         Chan.buf (C (ticker s')) = Chan.buf (C (ticker s)) /\
         sent evs' = [] /\
         (Chan.closed (stop (ticker s)) = false ->
          evs' = [EvDrop (now s)] /\ pc s' = AtLoop))) /\
  (forall orders : list pollorder,
      exists acts s evs,
        Forall (fun a => a <> Recv /\ a <> CallStop) acts /\
        run (fresh lcgSource 100000000 50000000 boot) acts = Next s evs /\
        pc s = AtLoop /\
        completed_cycles evs = length orders).
Proof.
  apply (single_slot_buffer Arch64 lcgSource 100000000 50000000 boot booted).
  reflexivity.
Defined.

(** ** Order of delivery *)

(** The cases of a step that succeeds. *)
Ltac step_cases H :=
  match type of H with
  | step ?s ?a = Next _ _ =>
      destruct a as [dt| |order| |]; cbn [step] in H;
      [ inversion H; subst; clear H
      | destruct (pc s) eqn:Hpc; try discriminate H;
        destruct (sleep (ticker s)) as [[[delay d] r']|q] eqn:Hsl;
        try discriminate H;
        inversion H; subst; clear H
      | destruct (pc s) as [|until|] eqn:Hpc; try discriminate H;
        destruct (Z.leb_spec until (now s)) as [Hwake|Hwake];
        try discriminate H;
        unfold tick_select in H;
        destruct (select_choose order _ _) eqn:Hsel;
        inversion H; subst; clear H
      | destruct (Chan.buf (C (ticker s))) as [|v rest] eqn:Hbuf;
        try discriminate H;
        inversion H; subst; clear H
      | destruct (Stop (ticker s)) as [t'|q] eqn:Hstop; try discriminate H;
        inversion H; subst; clear H;
        unfold Stop, Chan.close in Hstop;
        destruct (Chan.closed (stop (ticker s))); try discriminate Hstop;
        inversion Hstop; subst; clear Hstop ]
  end.

Lemma StronglySorted_snoc {A : Type} (R : A -> A -> Prop) (l : list A) (x : A) :
  StronglySorted R l -> Forall (fun y => R y x) l ->
  StronglySorted R (l ++ [x]).
Proof.
  induction 1 as [|a l Hsorted IH Hall]; intros Hx; simpl.
  - constructor; constructor.
  - inversion Hx; subst.
    constructor; [apply IH; assumption|].
    apply Forall_app. split; [assumption|].
    constructor; [assumption|constructor].
Qed.

Lemma StronglySorted_prefix {A : Type} (R : A -> A -> Prop) (l1 l2 : list A) :
  StronglySorted R (l1 ++ l2) -> StronglySorted R l1.
Proof.
  induction l1 as [|a l1 IH]; simpl; intros H.
  - constructor.
  - inversion H; subst. constructor; [apply IH; assumption|].
    apply Forall_app in H3. tauto.
Qed.

Lemma step_order_inv (s s' : State) (tr evs : list Event) (a : Action) :
  order_inv s tr -> step s a = Next s' evs -> order_inv s' (tr ++ evs).
Proof.
  unfold order_inv. intros (Hfifo & Hsorted & Hpast) Hstep.
  step_cases Hstep; rewrite sent_app, received_app; cbn;
    rewrite ?app_nil_r; auto.
  - (* time passes *)
    repeat split; auto.
    eapply Forall_impl; [|exact Hpast]. cbn. intros t Ht. lia.
  - (* the send case *)
    split; [rewrite app_assoc, Hfifo; reflexivity|].
    split.
    + apply StronglySorted_snoc; assumption.
    + apply Forall_app. split; [assumption|].
      constructor; [lia|constructor].
  - (* the consumer receives *)
    repeat split; auto.
    rewrite <- app_assoc. exact Hfifo.
Qed.

Lemma step_strict_inv (I J : Z) (s s' : State) (tr evs : list Event) (a : Action) :
  0 < I -> 0 < J -> I + J <= 2 ^ 63 ->
  ticker_inv I J s ->
  strict_inv I s tr -> step s a = Next s' evs -> strict_inv I s' (tr ++ evs).
Proof.
  unfold strict_inv. intros HI HJ Hfit Hinv (Hsorted & Hpast & Hwait) Hstep.
  pose proof (sleep_ok I J s Hinv HJ) as Hsleep.
  step_cases Hstep; rewrite sent_app; cbn; rewrite ?app_nil_r.
  - (* time passes *)
    repeat split; auto.
    eapply Forall_impl; [|exact Hpast]. cbn. intros t Ht. lia.
  - (* the loop goes to sleep, for at least [I] *)
    destruct Hsleep as (delay0 & r0 & Heq & Hdelay).
    inversion Heq; subst.
    rewrite wrap_in_range
      by (unfold Int64.in_range, Int64.min_int, Int64.max_int; lia).
    repeat split; auto.
    intros u Hu. inversion Hu; subst.
    eapply Forall_impl; [|exact Hpast]. cbn. intros t Ht. lia.
  - (* the stop case *)
    repeat split; auto. intros u Hu. discriminate Hu.
  - (* the send case: the loop slept since the last send *)
    pose proof (Hwait until eq_refl) as Hgap.
    split; [|split].
    + apply StronglySorted_snoc; [assumption|].
      eapply Forall_impl; [|exact Hgap]. cbn. intros t Ht. lia.
    + apply Forall_app. split; [assumption|].
      constructor; [lia|constructor].
    + intros u Hu. discriminate Hu.
  - (* the default case *)
    repeat split; auto. intros u Hu. discriminate Hu.
  - (* the consumer receives *)
    repeat split; auto.
  - (* Stop *)
    repeat split; auto.
Qed.

(** C7: in every execution of a ticker, the consumer receives the timestamps
    placed in [C] in the order they were placed (what it received, followed
    by what waits in [C], is what was placed), and these timestamps never
    decrease; they increase strictly when [I + J] does not exceed [2^63], so
    that no sleep is shorter than the interval. *)
Theorem delivery_order
        (p : arch) (NS : Z -> nat -> Z) (I J : Z) (rt rt' : Runtime)
        (s0 s : State) (acts : list Action) (evs : list Event) :
  NewTicker p NS I J rt = (Ok s0, rt') ->
  run s0 acts = Next s evs ->
  received evs ++ Chan.buf (C (ticker s)) = sent evs /\
  StronglySorted Z.le (sent evs) /\
  StronglySorted Z.le (received evs) /\
  (I + J <= 2 ^ 63 ->
   StronglySorted Z.lt (sent evs) /\ StronglySorted Z.lt (received evs)).
Proof.
  intros Hnew Hrun.
  apply NewTicker_inv in Hnew. destruct Hnew as (HI & HJ & ->).
  assert (H : ticker_inv I J s /\ order_inv s ([] ++ evs) /\
              (I + J <= 2 ^ 63 -> strict_inv I s ([] ++ evs))).
  { apply (run_preserves
             (fun s tr => ticker_inv I J s /\ order_inv s tr /\
                          (I + J <= 2 ^ 63 -> strict_inv I s tr)))
      with (acts := acts) (s := fresh NS I J rt).
    - intros s1 tr a s2 evs2 (Hinv & Hord & Hstrict) Hstep.
      split; [eapply step_ticker_inv; eassumption|].
      split; [eapply step_order_inv; eassumption|].
      intros Hfit. eapply step_strict_inv; eauto.
    - split; [apply fresh_inv|].
      split.
      + unfold order_inv. cbn. repeat constructor.
      + intros _. unfold strict_inv. cbn. repeat constructor.
    - exact Hrun. }
  cbn [app] in H.
  destruct H as (_ & (Hfifo & Hsorted & _) & Hstrict).
  split; [exact Hfifo|]. split; [exact Hsorted|].
  split.
  - rewrite <- Hfifo in Hsorted.
    exact (StronglySorted_prefix _ _ _ Hsorted).
  - intros Hfit. destruct (Hstrict Hfit) as (Hlt & _).
    split; [exact Hlt|].
    rewrite <- Hfifo in Hlt.
    exact (StronglySorted_prefix _ _ _ Hlt).
Qed.

Lemma delivery_order_witness :
  run (fresh lcgSource 100000000 50000000 boot)
      [ProdSleep; Elapse 150000000; ProdSelect SendFirst; Recv;
       ProdSleep; Elapse 150000000; ProdSelect SendFirst;
       ProdSleep; Elapse 150000000; ProdSelect StopFirst; Recv] =
    Next (sample_state 3 [] false AtLoop 450000000)
         [EvSleep 44481703 144481703; EvSend 150000000; EvRecv 150000000;
          EvSleep 4238233 104238233; EvSend 300000000;
          EvSleep 7600396 107600396; EvDrop 450000000; EvRecv 300000000] /\
  [150000000; 300000000] ++ [] = [150000000; 300000000] /\
  StronglySorted Z.le [150000000; 300000000] /\
  StronglySorted Z.lt [150000000; 300000000].
Proof.
  assert (Hrun :
    run (fresh lcgSource 100000000 50000000 boot)
        [ProdSleep; Elapse 150000000; ProdSelect SendFirst; Recv;
         ProdSleep; Elapse 150000000; ProdSelect SendFirst;
         ProdSleep; Elapse 150000000; ProdSelect StopFirst; Recv] =
      Next (sample_state 3 [] false AtLoop 450000000)
           [EvSleep 44481703 144481703; EvSend 150000000; EvRecv 150000000;
            EvSleep 4238233 104238233; EvSend 300000000;
            EvSleep 7600396 107600396; EvDrop 450000000; EvRecv 300000000])
    by reflexivity.
  split; [exact Hrun|].
  destruct (delivery_order Arch64 lcgSource 100000000 50000000 boot booted
              (fresh lcgSource 100000000 50000000 boot) _ _ _ eq_refl Hrun)
    as (Hfifo & _ & Hle & Hlt).
  split; [exact Hfifo|]. split; [exact Hle|].
  apply Hlt. lia.
Defined.

(** ** The private generators of two instances *)






(** ** What the select does once Stop has returned *)

(** With the stop channel closed, the [select] of a woken loop ends the loop
    unless it polls the send case first and the slot of [C] is free. *)
Lemma select_after_stop (s : State) (until : Time) (order : pollorder) :
  pc s = Asleep until -> until <= now s ->
  Chan.closed (stop (ticker s)) = true ->
  step s (ProdSelect order) =
    match order, Chan.can_send (C (ticker s)) with
    | SendFirst, true =>
        Next (set_ticker s (with_C (ticker s) (Chan.send (C (ticker s)) (now s)))
                         AtLoop)
             [EvSend (now s)]
    | _, _ => Next (set_ticker s (ticker s) Exited) [EvExit]
    end.
Proof.
  intros Hpc Hwake Hclosed.
  cbn [step]. rewrite Hpc.
  destruct (Z.leb_spec until (now s)) as [_|Hlate]; [|lia].
  unfold tick_select.
  assert (Hready : Chan.can_recv (stop (ticker s)) = true).
  { unfold Chan.can_recv. rewrite Hclosed.
    destruct (Chan.buf (stop (ticker s))); reflexivity. }
  rewrite Hready.
  destruct order; destruct (Chan.can_send (C (ticker s))); reflexivity.
Qed.

(** Two events delivered after [Stop] returned, step by step. *)
Example two_events_after_stop :
  run (fresh lcgSource 100000000 50000000 boot)
      [ProdSleep; CallStop;
       Elapse 150000000; ProdSelect SendFirst; Recv;
       ProdSleep; Elapse 150000000; ProdSelect SendFirst; Recv] =
    Next (sample_state 2 [] true AtLoop 300000000)
         [EvSleep 44481703 144481703; EvStop;
          EvSend 150000000; EvRecv 150000000;
          EvSleep 4238233 104238233;
          EvSend 300000000; EvRecv 300000000].
Proof. reflexivity. Qed.

(** The consumer away for three cycles: one event waits in [C], the first. *)
Example three_cycles_unread :
  run (fresh lcgSource 100000000 50000000 boot)
      [ProdSleep; Elapse 150000000; ProdSelect StopFirst;
       ProdSleep; Elapse 150000000; ProdSelect SendFirst;
       ProdSleep; Elapse 150000000; ProdSelect StopFirst;
       Recv] =
    Next (sample_state 3 [] false AtLoop 450000000)
         [EvSleep 44481703 144481703; EvSend 150000000;
          EvSleep 4238233 104238233; EvDrop 300000000;
          EvSleep 7600396 107600396; EvDrop 450000000;
          EvRecv 150000000].
Proof. reflexivity. Qed.


(** ** More on the constructor *)

(** X1: [NewTicker] returns exactly when both arguments are positive; it has
    then read the clock without changing it, made two channels and started
    one goroutine, and the ticker holds the two arguments, an empty open [C]
    of capacity one, an open unbuffered [stop], an unused generator seeded
    with the clock reading, and a loop at its top. *)
Theorem NewTicker_returns_iff
        (p : arch) (NS : Z -> nat -> Z) (I J : Z) (rt : Runtime) :
  (0 < I /\ 0 < J) <->
  (exists s0 rt',
      NewTicker p NS I J rt = (Ok s0, rt') /\
      clock rt' = clock rt /\
      chans_made rt' = S (S (chans_made rt)) /\
      goroutines rt' = S (goroutines rt) /\
      interval (ticker s0) = I /\
      jitter (ticker s0) = J /\
      C (ticker s0) = Chan.make 1 /\
      stop (ticker s0) = Chan.make 0 /\
      random (ticker s0) = Rand.New (NS (Int64.wrap (clock rt))) /\
      pc s0 = AtLoop /\
      now s0 = clock rt).
Proof.
  split.
  - intros [HI HJ].
    eexists. eexists. split; [apply NewTicker_ok; assumption|].
    cbn. repeat split; reflexivity.
  - intros (s0 & rt' & Hnew & _).
    apply NewTicker_inv in Hnew. tauto.
Qed.

(** X2: with a positive interval and a non-positive jitter the constructor
    panics with the error about the jitter, carrying [int(jitter)] (the
    jitter itself where [int] has 64 bits), and has touched nothing. *)
Theorem NewTicker_rejects_jitter
        (p : arch) (NS : Z -> nat -> Z) (I J : Z) (rt : Runtime) :
  Int64.in_range J ->
  0 < I -> J <= 0 ->
  NewTicker p NS I J rt = (Panic (NonPositiveJitter (to_int p J)), rt) /\
  to_int Arch64 J = J.
Proof.
  intros Hr HI HJ. split.
  - unfold NewTicker.
    destruct (Z.leb_spec I 0); [lia|].
    destruct (Z.leb_spec J 0); [reflexivity|lia].
  - apply wrap_in_range. exact Hr.
Qed.

Lemma NewTicker_rejects_jitter_witness :
  NewTicker Arch64 lcgSource 100000000 0 boot =
    (Panic (NonPositiveJitter (to_int Arch64 0)), boot) /\
  to_int Arch64 0 = 0.
Proof.
  apply (NewTicker_rejects_jitter Arch64 lcgSource 100000000 0 boot).
  - unfold Int64.in_range, Int64.min_int, Int64.max_int. lia.
  - lia.
  - lia.
Defined.

(** ** What an execution never changes *)

Lemma step_objects_inv (source : nat -> Z) (s s' : State) (a : Action)
      (evs : list Event) :
  objects_inv source s -> step s a = Next s' evs -> objects_inv source s'.
Proof.
  unfold objects_inv. intros (HC & Hscap & Hsbuf & Hout) Hstep.
  step_cases Hstep; cbn; auto.
  unfold sleep, Rand.Int63n in Hsl.
  destruct (jitter (ticker s) <=? 0); try discriminate Hsl.
  cbn in Hsl. inversion Hsl; subst. cbn. auto.
Qed.

(** X3: in every state a ticker reaches, its interval and its jitter are the
    arguments of the constructor, [C] still has capacity one and has not been
    closed, nothing was ever sent on [stop], and the generator still reads
    the source made at construction. *)
Theorem ticker_objects_stable
        (p : arch) (NS : Z -> nat -> Z) (I J : Z) (rt rt' : Runtime)
        (s0 s : State) (acts : list Action) (evs : list Event) :
  NewTicker p NS I J rt = (Ok s0, rt') ->
  run s0 acts = Next s evs ->
  interval (ticker s) = I /\
  jitter (ticker s) = J /\
  Chan.cap (C (ticker s)) = 1%nat /\
  Chan.closed (C (ticker s)) = false /\
  Chan.cap (stop (ticker s)) = 0%nat /\
  Chan.buf (stop (ticker s)) = [] /\
  Rand.outputs (random (ticker s)) = NS (Int64.wrap (clock rt)).
Proof.
  intros Hnew Hrun.
  apply NewTicker_inv in Hnew. destruct Hnew as (HI & HJ & ->).
  pose proof (run_ticker_inv I J acts _ _ _ (fresh_inv NS I J rt) Hrun)
    as (Hi & Hj & Hcap & _ & _).
  assert (Hobj : objects_inv (NS (Int64.wrap (clock rt))) s).
  { apply (run_preserves
             (fun s _ => objects_inv (NS (Int64.wrap (clock rt))) s))
      with (acts := acts) (s := fresh NS I J rt) (tr := []) (evs := evs).
    - intros s1 tr a s2 evs2. apply step_objects_inv.
    - unfold objects_inv. cbn. auto.
    - exact Hrun. }
  destruct Hobj as (HC & Hscap & Hsbuf & Hout).
  repeat split; assumption.
Qed.

Lemma ticker_objects_stable_witness :
  interval (ticker (sample_state 2 [] true AtLoop 300000000)) = 100000000 /\
  jitter (ticker (sample_state 2 [] true AtLoop 300000000)) = 50000000 /\
  Chan.cap (C (ticker (sample_state 2 [] true AtLoop 300000000))) = 1%nat /\
  Chan.closed (C (ticker (sample_state 2 [] true AtLoop 300000000))) = false /\
  Chan.cap (stop (ticker (sample_state 2 [] true AtLoop 300000000))) = 0%nat /\
  Chan.buf (stop (ticker (sample_state 2 [] true AtLoop 300000000))) = [] /\
  Rand.outputs (random (ticker (sample_state 2 [] true AtLoop 300000000))) =
    lcgSource (Int64.wrap (clock boot)).
Proof.
  apply (ticker_objects_stable Arch64 lcgSource 100000000 50000000 boot booted
           (fresh lcgSource 100000000 50000000 boot)
           (sample_state 2 [] true AtLoop 300000000)
           [ProdSleep; CallStop;
            Elapse 150000000; ProdSelect SendFirst; Recv;
            ProdSleep; Elapse 150000000; ProdSelect SendFirst; Recv]
           [EvSleep 44481703 144481703; EvStop;
            EvSend 150000000; EvRecv 150000000;
            EvSleep 4238233 104238233;
            EvSend 300000000; EvRecv 300000000]).
  - reflexivity.
  - reflexivity.
Defined.

(** ** When the loop leaves *)

Lemma count_exits_app (evs1 evs2 : list Event) :
  count_exits (evs1 ++ evs2) = (count_exits evs1 + count_exits evs2)%nat.
Proof.
  induction evs1 as [|e evs1 IH]; simpl; [reflexivity|].
  destruct e; simpl; rewrite IH; reflexivity.
Qed.

Lemma count_sleeps_app (evs1 evs2 : list Event) :
  count_sleeps (evs1 ++ evs2) = (count_sleeps evs1 + count_sleeps evs2)%nat.
Proof.
  induction evs1 as [|e evs1 IH]; simpl; [reflexivity|].
  destruct e; simpl; rewrite IH; reflexivity.
Qed.

Lemma count_drops_app (evs1 evs2 : list Event) :
  count_drops (evs1 ++ evs2) = (count_drops evs1 + count_drops evs2)%nat.
Proof.
  induction evs1 as [|e evs1 IH]; simpl; [reflexivity|].
  destruct e; simpl; rewrite IH; reflexivity.
Qed.

Lemma attempted_app (evs1 evs2 : list Event) :
  attempted (evs1 ++ evs2) = attempted evs1 ++ attempted evs2.
Proof.
  induction evs1 as [|e evs1 IH]; simpl; [reflexivity|].
  destruct e; simpl; rewrite IH; reflexivity.
Qed.


(** The stop case of the [select] needs a closed stop channel. *)
Lemma stop_case_closed (I J : Z) (s : State) (order : pollorder) :
  ticker_inv I J s ->
  select_choose order (Chan.can_recv (stop (ticker s)))
                (Chan.can_send (C (ticker s))) = CaseStop ->
  Chan.closed (stop (ticker s)) = true.
Proof.
  intros (_ & _ & _ & _ & Hempty) Hsel.
  unfold Chan.can_recv in Hsel. rewrite Hempty in Hsel.
  destruct (Chan.closed (stop (ticker s))); [reflexivity|].
  destruct order; cbn [select_choose] in Hsel;
    destruct (Chan.can_send (C (ticker s))); discriminate Hsel.
Qed.

Lemma step_exit_inv (I J : Z) (s s' : State) (tr evs : list Event) (a : Action) :
  ticker_inv I J s ->
  exit_inv s tr -> step s a = Next s' evs -> exit_inv s' (tr ++ evs).
Proof.
  unfold exit_inv. intros Hinv (Hcount & Hleft) Hstep.
  step_cases Hstep; rewrite count_exits_app; cbn;
    rewrite ?Nat.add_0_r; auto;
    (split; [cbn in Hcount; lia|]);
    intros Hu; try discriminate Hu.
  eapply stop_case_closed; eassumption.
Qed.

(** The stop channel is closed exactly when one [Stop] has returned. *)
Lemma run_stop_flag (s0 s : State) (acts : list Action) (evs : list Event) :
  Chan.closed (stop (ticker s0)) = false ->
  run s0 acts = Next s evs ->
  (Chan.closed (stop (ticker s)) = false /\ count_stops evs = 0%nat) \/
  (Chan.closed (stop (ticker s)) = true /\ count_stops evs = 1%nat).
Proof.
  intros Hopen Hrun.
  change evs with ([] ++ evs).
  apply (run_preserves
           (fun s tr =>
              (Chan.closed (stop (ticker s)) = false /\ count_stops tr = 0%nat) \/
              (Chan.closed (stop (ticker s)) = true /\ count_stops tr = 1%nat)))
    with (acts := acts) (s := s0).
  - intros s1 tr a s2 evs2 Hprev Hstep.
    rewrite count_stops_app.
    destruct (step_stop_flag _ _ _ _ Hstep) as [(Ho & Hc & Hn)|(Hsame & Hn)];
      rewrite Hn.
    + destruct Hprev as [[_ Hz]|[Hc' _]]; [|congruence].
      right. split; [exact Hc|lia].
    + rewrite Hsame, Nat.add_0_r. exact Hprev.
  - left. split; [exact Hopen|reflexivity].
  - exact Hrun.
Qed.

(** X4: the loop leaves at most once, and only after [Stop] has returned: in
    an execution that has reached [break loop] exactly one [Stop] completed,
    and in an execution without a completed [Stop] the loop has not left. *)
Theorem loop_exit_needs_stop
        (p : arch) (NS : Z -> nat -> Z) (I J : Z) (rt rt' : Runtime)
        (s0 s : State) (acts : list Action) (evs : list Event) :
  NewTicker p NS I J rt = (Ok s0, rt') ->
  run s0 acts = Next s evs ->
  (count_exits evs <= 1)%nat /\
  (count_exits evs = 1%nat <-> pc s = Exited) /\
  (pc s = Exited -> count_stops evs = 1%nat) /\
  (count_stops evs = 0%nat -> pc s <> Exited /\ count_exits evs = 0%nat).
Proof.
  intros Hnew Hrun.
  apply NewTicker_inv in Hnew. destruct Hnew as (HI & HJ & ->).
  assert (H : ticker_inv I J s /\ exit_inv s ([] ++ evs)).
  { apply (run_preserves (fun s tr => ticker_inv I J s /\ exit_inv s tr))
      with (acts := acts) (s := fresh NS I J rt).
    - intros s1 tr a s2 evs2 [Hinv Hexit] Hstep. split.
      + eapply step_ticker_inv; eassumption.
      + eapply step_exit_inv; eassumption.
    - split; [apply fresh_inv|]. split; [reflexivity|].
      intros Hu. discriminate Hu.
    - exact Hrun. }
  cbn [app] in H. destruct H as (_ & Hcount & Hleft).
  assert (Hflag := run_stop_flag _ _ _ _ (eq_refl : Chan.closed
              (stop (ticker (fresh NS I J rt))) = false) Hrun).
  assert (Hstops : pc s = Exited -> count_stops evs = 1%nat).
  { intros Hpc. specialize (Hleft Hpc).
    destruct Hflag as [[Ho _]|[_ Hn]]; [congruence|exact Hn]. }
  split; [rewrite Hcount; destruct (pc s); cbn; lia|].
  split; [rewrite Hcount; destruct (pc s); cbn; split; intros;
          congruence|].
  split; [exact Hstops|].
  intros Hnone.
  assert (Hpc : pc s <> Exited).
  { intros Hpc. specialize (Hstops Hpc). lia. }
  split; [exact Hpc|].
  rewrite Hcount. destruct (pc s); cbn; congruence.
Qed.

Lemma loop_exit_needs_stop_witness :
  le (count_exits [EvSleep 44481703 144481703; EvStop; EvExit]) 1 /\
  (count_exits [EvSleep 44481703 144481703; EvStop; EvExit] = 1%nat <->
   pc (sample_state 1 [] true Exited 150000000) = Exited) /\
  (pc (sample_state 1 [] true Exited 150000000) = Exited ->
   count_stops [EvSleep 44481703 144481703; EvStop; EvExit] = 1%nat) /\
  (count_stops [EvSleep 44481703 144481703; EvStop; EvExit] = 0%nat ->
   pc (sample_state 1 [] true Exited 150000000) <> Exited /\
   count_exits [EvSleep 44481703 144481703; EvStop; EvExit] = 0%nat).
Proof.
  apply (loop_exit_needs_stop Arch64 lcgSource 100000000 50000000 boot booted
           (fresh lcgSource 100000000 50000000 boot)
           (sample_state 1 [] true Exited 150000000)
           [ProdSleep; CallStop; Elapse 150000000; ProdSelect StopFirst]).
  - reflexivity.
  - reflexivity.
Defined.



(** ** Counting cycles *)

Lemma step_cycle_inv (s s' : State) (tr evs : list Event) (a : Action) :
  cycle_inv s tr -> step s a = Next s' evs -> cycle_inv s' (tr ++ evs).
Proof.
  unfold cycle_inv. intros Hcount Hstep.
  rewrite count_sleeps_app, completed_cycles_app, count_exits_app.
  step_cases Hstep; cbn in *; lia.
Qed.

Lemma completed_cycles_split (evs : list Event) :
  completed_cycles evs = (length (sent evs) + count_drops evs)%nat.
Proof.
  induction evs as [|e evs IH]; [reflexivity|].
  destruct e; cbn; lia.
Qed.

(** X7: every sleep is followed by exactly one pass through the [select],
    and every pass places an event, discards it, or leaves the loop: the
    number of sleeps is the number of events placed plus the number discarded
    plus the number of exits, plus one while the loop is asleep. *)
Theorem cycle_accounting
        (p : arch) (NS : Z -> nat -> Z) (I J : Z) (rt rt' : Runtime)
        (s0 s : State) (acts : list Action) (evs : list Event) :
  NewTicker p NS I J rt = (Ok s0, rt') ->
  run s0 acts = Next s evs ->
  count_sleeps evs =
    (length (sent evs) + count_drops evs + count_exits evs + sleeping (pc s))%nat.
Proof.
  intros Hnew Hrun.
  apply NewTicker_inv in Hnew. destruct Hnew as (HI & HJ & ->).
  rewrite <- completed_cycles_split.
  change (cycle_inv s ([] ++ evs)).
  apply (run_preserves cycle_inv) with (acts := acts) (s := fresh NS I J rt).
  - intros s1 tr a s2 evs2. apply step_cycle_inv.
  - reflexivity.
  - exact Hrun.
Qed.

Lemma cycle_accounting_witness :
  run (fresh lcgSource 100000000 50000000 boot)
      [ProdSleep; Elapse 150000000; ProdSelect StopFirst;
       ProdSleep; Elapse 150000000; ProdSelect SendFirst;
       ProdSleep; Elapse 150000000; ProdSelect StopFirst;
       Recv] =
    Next (sample_state 3 [] false AtLoop 450000000)
         [EvSleep 44481703 144481703; EvSend 150000000;
          EvSleep 4238233 104238233; EvDrop 300000000;
          EvSleep 7600396 107600396; EvDrop 450000000;
          EvRecv 150000000] /\
  (3 = 1 + 2 + 0 + 0)%nat.
Proof.
  assert (Hrun :
    run (fresh lcgSource 100000000 50000000 boot)
        [ProdSleep; Elapse 150000000; ProdSelect StopFirst;
         ProdSleep; Elapse 150000000; ProdSelect SendFirst;
         ProdSleep; Elapse 150000000; ProdSelect StopFirst;
         Recv] =
      Next (sample_state 3 [] false AtLoop 450000000)
           [EvSleep 44481703 144481703; EvSend 150000000;
            EvSleep 4238233 104238233; EvDrop 300000000;
            EvSleep 7600396 107600396; EvDrop 450000000;
            EvRecv 150000000])
    by reflexivity.
  split; [exact Hrun|].
  exact (cycle_accounting Arch64 lcgSource 100000000 50000000 boot booted
           (fresh lcgSource 100000000 50000000 boot) _ _ _ eq_refl Hrun).
Defined.

(** ** The select before and after Stop *)

(** X10: until [Stop] is called the order in which the [select] polls its
    cases does not matter: a woken loop places the timestamp in [C] when the
    slot is free and discards it when the slot is occupied, and goes on. *)
Theorem select_before_stop
        (p : arch) (NS : Z -> nat -> Z) (I J : Z) (rt rt' : Runtime)
        (s0 s : State) (acts : list Action) (evs : list Event)
        (until : Time) (order : pollorder) :
  NewTicker p NS I J rt = (Ok s0, rt') ->
  run s0 acts = Next s evs ->
  count_stops evs = 0%nat ->
  pc s = Asleep until -> until <= now s ->
  step s (ProdSelect order) =
    match Chan.buf (C (ticker s)) with
    | [] =>
        Next (set_ticker s (with_C (ticker s) (Chan.send (C (ticker s)) (now s)))
                         AtLoop)
             [EvSend (now s)]
    | _ :: _ => Next (set_ticker s (ticker s) AtLoop) [EvDrop (now s)]
    end.
Proof.
  intros Hnew Hrun Hnone Hpc Hwake.
  apply NewTicker_inv in Hnew. destruct Hnew as (HI & HJ & ->).
  pose proof (run_ticker_inv I J acts _ _ _ (fresh_inv NS I J rt) Hrun) as Hinv.
  assert (Hopen : Chan.closed (stop (ticker s)) = false).
  { destruct (run_stop_flag _ _ _ _
                (eq_refl : Chan.closed (stop (ticker (fresh NS I J rt))) = false)
                Hrun) as [[Ho _]|[_ Hn]]; [exact Ho|lia]. }
  cbn [step]. rewrite Hpc.
  destruct (Z.leb_spec until (now s)) as [_|Hlate]; [|lia].
  unfold tick_select.
  rewrite (open_cannot_stop I J s Hinv Hopen).
  destruct (Chan.buf (C (ticker s))) as [|v rest] eqn:Hbuf.
  - assert (Hsend : Chan.can_send (C (ticker s)) = true).
    { unfold Chan.can_send. destruct Hinv as (_ & _ & -> & _).
      rewrite Hbuf. reflexivity. }
    rewrite Hsend. destruct order; reflexivity.
  - assert (Hfull : Chan.can_send (C (ticker s)) = false).
    { apply (full_cannot_send I J s Hinv). rewrite Hbuf. discriminate. }
    rewrite Hfull. destruct order; reflexivity.
Qed.

Lemma select_before_stop_witness :
  step (sample_state 2 [150000000] false (Asleep 254238233) 300000000)
       (ProdSelect StopFirst) =
    Next (sample_state 2 [150000000] false AtLoop 300000000)
         [EvDrop 300000000].
Proof.
  apply (select_before_stop Arch64 lcgSource 100000000 50000000 boot booted
           (fresh lcgSource 100000000 50000000 boot)
           (sample_state 2 [150000000] false (Asleep 254238233) 300000000)
           [ProdSleep; Elapse 150000000; ProdSelect SendFirst;
            ProdSleep; Elapse 150000000]
           [EvSleep 44481703 144481703; EvSend 150000000;
            EvSleep 4238233 104238233]
           254238233 StopFirst).
  - reflexivity.
  - reflexivity.
  - reflexivity.
  - reflexivity.
  - simpl. lia.
Defined.

Lemma step_unread (I J : Z) (s s' : State) (a : Action) (evs : list Event) :
  ticker_inv I J s ->
  Chan.closed (stop (ticker s)) = true ->
  is_Recv a = false ->
  step s a = Next s' evs ->
  Chan.closed (stop (ticker s')) = true /\
  length (Chan.buf (C (ticker s'))) =
    (length (Chan.buf (C (ticker s))) + completed_cycles evs)%nat /\
  count_drops evs = 0%nat.
Proof.
  intros Hinv Hclosed Hrecv Hstep.
  assert (Hready : Chan.can_recv (stop (ticker s)) = true).
  { unfold Chan.can_recv. rewrite Hclosed.
    destruct (Chan.buf (stop (ticker s))); reflexivity. }
  step_cases Hstep; cbn; try discriminate; auto.
  - rewrite length_app. cbn. auto.
  - rewrite Hready in Hsel.
    destruct order; cbn [select_choose] in Hsel;
      destruct (Chan.can_send (C (ticker s))); discriminate Hsel.
Qed.

Lemma run_unread (I J : Z) (acts : list Action) :
  forall s s' evs,
    ticker_inv I J s ->
    Chan.closed (stop (ticker s)) = true ->
    forallb (fun a => negb (is_Recv a)) acts = true ->
    run s acts = Next s' evs ->
    length (Chan.buf (C (ticker s'))) =
      (length (Chan.buf (C (ticker s))) + completed_cycles evs)%nat /\
    count_drops evs = 0%nat.
Proof.
  induction acts as [|a acts IH]; intros s s' evs Hinv Hclosed Hacts Hrun;
    cbn in Hrun.
  - inversion Hrun; subst. cbn. auto.
  - cbn in Hacts. apply andb_true_iff in Hacts. destruct Hacts as [Ha Hacts].
    apply negb_true_iff in Ha.
    destruct (step s a) as [s1 e1| |q] eqn:Hs; try discriminate Hrun.
    destruct (run s1 acts) as [s2 e2| |q] eqn:Hr; try discriminate Hrun.
    inversion Hrun; subst.
    destruct (step_unread I J s s1 a e1 Hinv Hclosed Ha Hs)
      as (Hclosed1 & Hlen1 & Hdrop1).
    pose proof (step_ticker_inv I J s s1 a e1 Hinv Hs) as Hinv1.
    destruct (IH s1 s' e2 Hinv1 Hclosed1 Hacts Hr) as (Hlen2 & Hdrop2).
    rewrite completed_cycles_app, count_drops_app. lia.
Qed.

(** X6: once [Stop] has returned, if the consumer receives no more, the loop
    goes on for at most one more cycle, and for none when an event already
    waits in [C]: the only [select] that still goes on with the loop is one
    that fills the free slot, and no event is discarded any more. *)
Theorem stopped_unread_winds_down
        (p : arch) (NS : Z -> nat -> Z) (I J : Z) (rt rt' : Runtime)
        (s0 s s' : State) (acts0 acts : list Action) (evs0 evs : list Event) :
  NewTicker p NS I J rt = (Ok s0, rt') ->
  run s0 acts0 = Next s evs0 ->
  Chan.closed (stop (ticker s)) = true ->
  forallb (fun a => negb (is_Recv a)) acts = true ->
  run s acts = Next s' evs ->
  (length (Chan.buf (C (ticker s))) + completed_cycles evs <= 1)%nat /\
  length (sent evs) = completed_cycles evs /\
  count_drops evs = 0%nat.
Proof.
  intros Hnew Hrun0 Hclosed Hacts Hrun.
  apply NewTicker_inv in Hnew. destruct Hnew as (HI & HJ & ->).
  pose proof (run_ticker_inv I J acts0 _ _ _ (fresh_inv NS I J rt) Hrun0) as Hinv.
  pose proof (run_ticker_inv I J acts _ _ _ Hinv Hrun) as (_ & _ & _ & Hlen & _).
  destruct (run_unread I J acts s s' evs Hinv Hclosed Hacts Hrun)
    as (Hgrow & Hdrops).
  split; [lia|].
  split; [rewrite completed_cycles_split; lia|exact Hdrops].
Qed.

Lemma stopped_unread_winds_down_witness :
  run (sample_state 1 [] true (Asleep 144481703) 0)
      [Elapse 150000000; ProdSelect SendFirst;
       ProdSleep; Elapse 150000000; ProdSelect SendFirst] =
    Next (sample_state 2 [150000000] true Exited 300000000)
         [EvSend 150000000; EvSleep 4238233 104238233; EvExit] /\
  (0 + 1 <= 1)%nat /\ 1%nat = 1%nat /\ 0%nat = 0%nat.
Proof.
  assert (Hrun :
    run (sample_state 1 [] true (Asleep 144481703) 0)
        [Elapse 150000000; ProdSelect SendFirst;
         ProdSleep; Elapse 150000000; ProdSelect SendFirst] =
      Next (sample_state 2 [150000000] true Exited 300000000)
           [EvSend 150000000; EvSleep 4238233 104238233; EvExit])
    by reflexivity.
  split; [exact Hrun|].
  apply (stopped_unread_winds_down Arch64 lcgSource 100000000 50000000
           boot booted
           (fresh lcgSource 100000000 50000000 boot)
           (sample_state 1 [] true (Asleep 144481703) 0)
           (sample_state 2 [150000000] true Exited 300000000)
           [ProdSleep; CallStop]
           [Elapse 150000000; ProdSelect SendFirst;
            ProdSleep; Elapse 150000000; ProdSelect SendFirst]
           [EvSleep 44481703 144481703; EvStop]
           [EvSend 150000000; EvSleep 4238233 104238233; EvExit]).
  - reflexivity.
  - reflexivity.
  - reflexivity.
  - reflexivity.
  - exact Hrun.
Defined.

(** ** The pace of the attempts *)

Lemma sent_of_attempted_Forall (P : Time -> Prop) (evs : list Event) :
  Forall P (attempted evs) -> Forall P (sent evs).
Proof.
  induction evs as [|e evs IH]; intros H; [constructor|].
  destruct e; cbn in *; auto.
  - inversion H; subst. constructor; auto.
  - inversion H; subst. auto.
Qed.

Lemma sent_of_attempted_sorted (R : Time -> Time -> Prop) (evs : list Event) :
  StronglySorted R (attempted evs) -> StronglySorted R (sent evs).
Proof.
  induction evs as [|e evs IH]; intros H; [constructor|].
  destruct e; cbn in *; auto.
  - inversion H; subst. constructor; auto.
    apply sent_of_attempted_Forall. assumption.
  - inversion H; subst. auto.
Qed.

Lemma step_spacing_inv (I J : Z) (t0 : Time) (s s' : State)
      (tr evs : list Event) (a : Action) :
  0 < I -> 0 < J -> I + J <= 2 ^ 63 ->
  ticker_inv I J s ->
  spacing_inv I t0 s tr -> step s a = Next s' evs ->
  spacing_inv I t0 s' (tr ++ evs).
Proof.
  unfold spacing_inv.
  intros HI HJ Hfit Hinv (Hsorted & Hpast & Hstart & Hwait) Hstep.
  pose proof (sleep_ok I J s Hinv HJ) as Hsleep.
  step_cases Hstep; rewrite attempted_app; cbn; rewrite ?app_nil_r.
  - (* time passes *)
    split; [assumption|].
    split; [eapply Forall_impl; [|exact Hpast]; cbn; intros t Ht; lia|].
    split; [lia|exact Hwait].
  - (* the loop goes to sleep, for at least [I] *)
    destruct Hsleep as (delay0 & r0 & Heq & Hdelay).
    inversion Heq; subst.
    rewrite wrap_in_range
      by (unfold Int64.in_range, Int64.min_int, Int64.max_int; lia).
    split; [assumption|]. split; [assumption|]. split; [assumption|].
    intros u Hu. inversion Hu; subst. split; [lia|].
    eapply Forall_impl; [|exact Hpast]. cbn. intros t Ht. lia.
  - (* the stop case *)
    split; [assumption|]. split; [assumption|]. split; [assumption|].
    intros u Hu. discriminate Hu.
  - (* the send case *)
    destruct (Hwait until eq_refl) as (Hfirst & Hgap).
    split; [|split; [|split]].
    + apply StronglySorted_snoc; [assumption|].
      eapply Forall_impl; [|exact Hgap]. cbn. intros t Ht. lia.
    + apply Forall_app. split; [assumption|].
      constructor; [lia|constructor].
    + assumption.
    + intros u Hu. discriminate Hu.
  - (* the default case *)
    destruct (Hwait until eq_refl) as (Hfirst & Hgap).
    split; [|split; [|split]].
    + apply StronglySorted_snoc; [assumption|].
      eapply Forall_impl; [|exact Hgap]. cbn. intros t Ht. lia.
    + apply Forall_app. split; [assumption|].
      constructor; [lia|constructor].
    + assumption.
    + intros u Hu. discriminate Hu.
  - (* the consumer receives *)
    split; [assumption|]. split; [assumption|]. split; [assumption|].
    exact Hwait.
  - (* Stop *)
    split; [assumption|]. split; [assumption|]. split; [assumption|].
    exact Hwait.
Qed.

(** X8: when [I + J] does not exceed [2^63], the loop attempts a delivery
    at most once per interval: the times of any two attempts (events placed
    in [C] or discarded) are at least [I] apart, the first attempt comes no
    earlier than [I] after the constructor returned, and the same holds of
    the events placed in [C]. *)
Theorem attempts_one_interval_apart
        (p : arch) (NS : Z -> nat -> Z) (I J : Z) (rt rt' : Runtime)
        (s0 s : State) (acts : list Action) (evs : list Event) :
  NewTicker p NS I J rt = (Ok s0, rt') ->
  I + J <= 2 ^ 63 ->
  run s0 acts = Next s evs ->
  StronglySorted (fun a b => a + I <= b) (attempted evs) /\
  Forall (fun t => now s0 + I <= t) (attempted evs) /\
  StronglySorted (fun a b => a + I <= b) (sent evs) /\
  Forall (fun t => now s0 + I <= t) (sent evs).
Proof.
  intros Hnew Hfit Hrun.
  apply NewTicker_inv in Hnew. destruct Hnew as (HI & HJ & ->).
  assert (H : ticker_inv I J s /\
              spacing_inv I (now (fresh NS I J rt)) s ([] ++ evs)).
  { apply (run_preserves
             (fun s tr => ticker_inv I J s /\
                          spacing_inv I (now (fresh NS I J rt)) s tr))
      with (acts := acts) (s := fresh NS I J rt).
    - intros s1 tr a s2 evs2 (Hinv & Hsp) Hstep.
      split; [eapply step_ticker_inv; eassumption|].
      eapply step_spacing_inv; eauto.
    - split; [apply fresh_inv|].
      unfold spacing_inv. cbn.
      split; [constructor|]. split; [constructor|]. split; [lia|].
      intros u Hu. discriminate Hu.
    - exact Hrun. }
  cbn [app] in H. destruct H as (_ & Hsorted & Hpast & _).
  assert (Hfirst : Forall (fun t => now (fresh NS I J rt) + I <= t)
                          (attempted evs)).
  { eapply Forall_impl; [|exact Hpast]. cbn. intros t Ht. lia. }
  split; [exact Hsorted|]. split; [exact Hfirst|].
  split.
  - apply sent_of_attempted_sorted. exact Hsorted.
  - apply sent_of_attempted_Forall. exact Hfirst.
Qed.

Lemma attempts_one_interval_apart_witness :
  run (fresh lcgSource 100000000 50000000 boot)
      [ProdSleep; Elapse 150000000; ProdSelect StopFirst;
       ProdSleep; Elapse 150000000; ProdSelect SendFirst;
       ProdSleep; Elapse 150000000; ProdSelect StopFirst;
       Recv] =
    Next (sample_state 3 [] false AtLoop 450000000)
         [EvSleep 44481703 144481703; EvSend 150000000;
          EvSleep 4238233 104238233; EvDrop 300000000;
          EvSleep 7600396 107600396; EvDrop 450000000;
          EvRecv 150000000] /\
  StronglySorted (fun a b => a + 100000000 <= b)
                 [150000000; 300000000; 450000000] /\
  Forall (fun t => 0 + 100000000 <= t) [150000000; 300000000; 450000000] /\
  StronglySorted (fun a b => a + 100000000 <= b) [150000000] /\
  Forall (fun t => 0 + 100000000 <= t) [150000000].
Proof.
  assert (Hrun :
    run (fresh lcgSource 100000000 50000000 boot)
        [ProdSleep; Elapse 150000000; ProdSelect StopFirst;
         ProdSleep; Elapse 150000000; ProdSelect SendFirst;
         ProdSleep; Elapse 150000000; ProdSelect StopFirst;
         Recv] =
      Next (sample_state 3 [] false AtLoop 450000000)
           [EvSleep 44481703 144481703; EvSend 150000000;
            EvSleep 4238233 104238233; EvDrop 300000000;
            EvSleep 7600396 107600396; EvDrop 450000000;
            EvRecv 150000000])
    by reflexivity.
  split; [exact Hrun|].
  apply (attempts_one_interval_apart Arch64 lcgSource 100000000 50000000
           boot booted (fresh lcgSource 100000000 50000000 boot) _ _ _
           eq_refl ltac:(lia) Hrun).
Defined.

(** ** The delays of an execution *)




(** ** How many attempts fit in a span of time *)

Lemma spaced_length (I : Z) (l : list Time) :
  forall lo hi,
    lo <= hi ->
    StronglySorted (fun a b => a + I <= b) l ->
    Forall (fun t => lo + I <= t <= hi) l ->
    Z.of_nat (length l) * I <= hi - lo.
Proof.
  induction l as [|a l IH]; intros lo hi Hle Hsorted Hall.
  - cbn. lia.
  - inversion Hsorted as [|a' l' Hsorted' Hgap]; subst.
    inversion Hall as [|a' l' Ha Hrest]; subst.
    assert (Hall' : Forall (fun t => a + I <= t <= hi) l).
    { rewrite Forall_forall in *. intros t Ht.
      specialize (Hgap t Ht). specialize (Hrest t Ht). cbn in *. lia. }
    specialize (IH a hi ltac:(lia) Hsorted' Hall').
    cbn [length]. rewrite Nat2Z.inj_succ. lia.
Qed.

Lemma run_spacing_inv (NS : Z -> nat -> Z) (I J : Z) (rt : Runtime)
      (s : State) (acts : list Action) (evs : list Event) :
  0 < I -> 0 < J -> I + J <= 2 ^ 63 ->
  run (fresh NS I J rt) acts = Next s evs ->
  spacing_inv I (clock rt) s evs.
Proof.
  intros HI HJ Hfit Hrun.
  assert (H : ticker_inv I J s /\ spacing_inv I (clock rt) s ([] ++ evs)).
  { apply (run_preserves
             (fun s tr => ticker_inv I J s /\ spacing_inv I (clock rt) s tr))
      with (acts := acts) (s := fresh NS I J rt).
    - intros s1 tr a s2 evs2 (Hinv & Hsp) Hstep.
      split; [eapply step_ticker_inv; eassumption|].
      eapply step_spacing_inv; eauto.
    - split; [apply fresh_inv|].
      unfold spacing_inv. cbn.
      split; [constructor|]. split; [constructor|]. split; [lia|].
      intros u Hu. discriminate Hu.
    - exact Hrun. }
  cbn [app] in H. tauto.
Qed.

(** X11: when [I + J] does not exceed [2^63], a ticker attempts at most one
    delivery per interval elapsed: the number of attempts (events placed in
    [C] or discarded) times [I] is at most the time gone by since the
    constructor returned; so is the number of events placed times [I]. *)
Theorem attempt_rate_bound
        (p : arch) (NS : Z -> nat -> Z) (I J : Z) (rt rt' : Runtime)
        (s0 s : State) (acts : list Action) (evs : list Event) :
  NewTicker p NS I J rt = (Ok s0, rt') ->
  I + J <= 2 ^ 63 ->
  run s0 acts = Next s evs ->
  Z.of_nat (length (attempted evs)) * I <= now s - now s0 /\
  Z.of_nat (length (sent evs)) * I <= now s - now s0.
Proof.
  intros Hnew Hfit Hrun.
  apply NewTicker_inv in Hnew. destruct Hnew as (HI & HJ & ->).
  destruct (run_spacing_inv NS I J rt s acts evs HI HJ Hfit Hrun)
    as (Hsorted & Hpast & Hstart & _).
  cbn [now fresh].
  split.
  - apply spaced_length; assumption.
  - apply spaced_length; [assumption| |].
    + apply sent_of_attempted_sorted. exact Hsorted.
    + apply sent_of_attempted_Forall. exact Hpast.
Qed.

Lemma attempt_rate_bound_witness :
  run (fresh lcgSource 100000000 50000000 boot)
      [ProdSleep; Elapse 150000000; ProdSelect StopFirst;
       ProdSleep; Elapse 150000000; ProdSelect SendFirst;
       ProdSleep; Elapse 150000000; ProdSelect StopFirst;
       Recv] =
    Next (sample_state 3 [] false AtLoop 450000000)
         [EvSleep 44481703 144481703; EvSend 150000000;
          EvSleep 4238233 104238233; EvDrop 300000000;
          EvSleep 7600396 107600396; EvDrop 450000000;
          EvRecv 150000000] /\
  3 * 100000000 <= 450000000 - 0 /\
  1 * 100000000 <= 450000000 - 0.
Proof.
  assert (Hrun :
    run (fresh lcgSource 100000000 50000000 boot)
        [ProdSleep; Elapse 150000000; ProdSelect StopFirst;
         ProdSleep; Elapse 150000000; ProdSelect SendFirst;
         ProdSleep; Elapse 150000000; ProdSelect StopFirst;
         Recv] =
      Next (sample_state 3 [] false AtLoop 450000000)
           [EvSleep 44481703 144481703; EvSend 150000000;
            EvSleep 4238233 104238233; EvDrop 300000000;
            EvSleep 7600396 107600396; EvDrop 450000000;
            EvRecv 150000000])
    by reflexivity.
  split; [exact Hrun|].
  exact (attempt_rate_bound Arch64 lcgSource 100000000 50000000
           boot booted (fresh lcgSource 100000000 50000000 boot) _ _ _
           eq_refl ltac:(lia) Hrun).
Defined.
